(** * cgraph2dot: call-graph extraction and structural comparison

    A shallow embedding of the two Python programs of the repository,
    [dot2interactive.py] (extraction, classification, renderable model) and
    [tests/dotdiff.py] (structural comparator and its command line), with
    the properties their specification states.  The definitions come
    first: the programs, then the vocabulary of the statements; the
    lemmas and theorems follow. *)

From Stdlib Require Import Ascii String List ZArith Lia.
From stdpp Require Import gmap strings list sorting pretty.

Local Open Scope Z_scope.

(** ** Text

    A Python [str] is modelled as a [string] whose characters are the code
    points below 256. *)

Definition quote : ascii := "034"%char.

(** The class [\s] of Python's [re] on [str] patterns, restricted to the
    code points below 256: TAB, LF, VT, FF, CR, the separators
    0x1C..0x1F, SPACE, NEL (0x85) and NBSP (0xA0). *)
Definition is_space (c : ascii) : bool :=
  let n := nat_of_ascii c in
  ((9 <=? n)%nat && (n <=? 13)%nat) || ((28 <=? n)%nat && (n <=? 32)%nat)
  || (n =? 133)%nat || (n =? 160)%nat.

Definition nl : string := String "010"%char EmptyString.

(** ["\n".join(l)] *)
Fixpoint join (sep : string) (l : list string) : string :=
  match l with
  | [] => EmptyString
  | [x] => x
  | x :: l' => x +:+ sep +:+ join sep l'
  end.

(** ** The fragment of [re] that the two patterns use *)

Module Re.

Inductive charset :=
| Chr (c : ascii)        (* the literal character c *)
| NotChr (c : ascii)     (* the class [^c] *)
| Whitespace.            (* the class \s *)

Definition accepts (cs : charset) (c : ascii) : bool :=
  match cs with
  | Chr d => Ascii.eqb d c
  | NotChr d => negb (Ascii.eqb d c)
  | Whitespace => is_space c
  end.

(** [Many least_one capture cs] is the greedy repetition [cs*]
    ([least_one = false]) or [cs+] ([least_one = true]), wrapped in a
    capturing group when [capture] is set. *)
Inductive item :=
| One (cs : charset)
| Many (least_one capture : bool) (cs : charset).

Definition pattern := list item.

Fixpoint literal (s : string) : pattern :=
  match s with
  | EmptyString => []
  | String c s' => One (Chr c) :: literal s'
  end.

(** A match object, reduced to its captured groups in order. *)
Definition re_match := list string.

Definition group (m : re_match) (n : nat) : string := nth (n - 1) m EmptyString.

(** Greedy repetition of [cs] in front of the continuation [k]: take
    one more character when [cs] accepts it and the longer attempt
    succeeds, otherwise go on with [k] from here.  The result is the
    text taken, the groups of [k] and the text left. *)
Definition stop (k : string → option (re_match * string)) (s : string) :
    option (string * re_match * string) :=
  match k s with
  | Some (groups, rest) => Some (EmptyString, groups, rest)
  | None => None
  end.

Definition take (c : ascii) (r : option (string * re_match * string)) :
    option (string * re_match * string) :=
  match r with
  | Some (taken, groups, rest) => Some (String c taken, groups, rest)
  | None => None
  end.

Fixpoint greedy (cs : charset) (k : string → option (re_match * string))
    (s : string) : option (string * re_match * string) :=
  match s with
  | String c s' =>
      if accepts cs c then
        match greedy cs k s' with
        | Some r => take c (Some r)
        | None => stop k s
        end
      else stop k s
  | EmptyString => stop k s
  end.

(** Backtracking matcher anchored at the head of [s]: the captured groups
    and the text left after the match. *)
Fixpoint match_here (p : pattern) (s : string) : option (re_match * string) :=
  match p with
  | [] => Some ([], s)
  | One cs :: p' =>
      match s with
      | String c s' => if accepts cs c then match_here p' s' else None
      | EmptyString => None
      end
  | Many least_one capture cs :: p' =>
      let found :=
        if least_one then
          match s with
          | String c s' =>
              if accepts cs c then take c (greedy cs (match_here p') s') else None
          | EmptyString => None
          end
        else greedy cs (match_here p') s in
      match found with
      | Some (taken, groups, rest) =>
          Some (if capture then taken :: groups else groups, rest)
      | None => None
      end
  end.

(** [re.finditer]: the non-overlapping matches, scanning left to right.
    After a match the scan resumes where the match ended: [skip] counts
    the characters of the current match still to be passed.  Both
    patterns of the program begin with a literal, so a match is never
    empty and the empty text has none. *)
Fixpoint finditer_from (p : pattern) (skip : nat) (s : string) : list re_match :=
  match s with
  | EmptyString => []
  | String _ s' =>
      match skip with
      | S k => finditer_from p k s'
      | O =>
          match match_here p s with
          | Some (groups, rest) =>
              groups :: finditer_from p (String.length s - String.length rest - 1) s'
          | None => finditer_from p 0 s'
          end
      end
  end.

Definition finditer (p : pattern) (s : string) : list re_match :=
  finditer_from p 0 s.

End Re.

Import Re.

(** [r'"([^"]+)"\s*\[label="([^"]+)"\]'] *)
Definition node_pattern : pattern :=
  [One (Chr quote); Many true true (NotChr quote); One (Chr quote);
   Many false false Whitespace]
  ++ literal "[label=" ++ [One (Chr quote); Many true true (NotChr quote);
   One (Chr quote)] ++ literal "]".

(** [r'"([^"]+)"\s*->\s*"([^"]+)"'] *)
Definition edge_pattern : pattern :=
  [One (Chr quote); Many true true (NotChr quote); One (Chr quote);
   Many false false Whitespace]
  ++ literal "->" ++ [Many false false Whitespace; One (Chr quote);
   Many true true (NotChr quote); One (Chr quote)].

(** ** Files, standard output and exits

    The programs only read files.  A file system maps the paths of the
    regular files to their contents; a run leaves a chronological trace of
    the files it opened and the lines it printed, and ends with a value
    or an exception. *)

Inductive exn :=
| SystemExit (code : Z)
| FileNotFoundError (path : string).

Inductive event :=
| Opened (path : string)
| Printed (text : string).

Definition M (A : Type) : Type := list event → list event * (exn + A).

Global Instance M_ret : MRet M := λ A (a : A) t, (t, inr a).

Global Instance M_bind : MBind M := λ A B (f : A → M B) (m : M A) t,
  match m t with
  | (t', inr a) => f a t'
  | (t', inl e) => (t', inl e)
  end.

Definition raise {A} (e : exn) : M A := λ t, (t, inl e).

Definition print (text : string) : M unit := λ t, (t ++ [Printed text], inr tt).

Definition sys_exit {A} (code : Z) : M A := raise (SystemExit code).

(** [with open(path, 'r') as f: content = f.read()] *)
Definition read_file (fs : gmap string string) (path : string) : M string := λ t,
  match fs !! path with
  | Some content => (t ++ [Opened path], inr content)
  | None => (t, inl (FileNotFoundError path))
  end.

(** [Path(path).exists()] *)
Definition path_exists (fs : gmap string string) (path : string) : bool :=
  bool_decide (is_Some (fs !! path)).

(** Running a program from an empty trace; the exit status of the
    interpreter is 0 on a normal return, the argument of [sys.exit], and 1
    for any other uncaught exception. *)
Definition run {A} (m : M A) : list event * (exn + A) := m [].




(** ** Python's order on pairs of strings, and [sorted]

    Strings compare by code point, tuples lexicographically. *)

Definition tuple_le (x y : string * string) : Prop :=
  if decide (x.1 = y.1) then String.le x.2 y.2 else String.le x.1 y.1.

Global Instance tuple_le_dec : RelDecision tuple_le.
Proof. intros x y. unfold tuple_le. destruct (decide (x.1 = y.1)); apply _. Defined.

Definition sorted (l : list (string * string)) : list (string * string) :=
  merge_sort tuple_le l.

(** ** tests/dotdiff.py *)

Module Dotdiff.

(** The dictionary with the keys ['nodes'] and ['edges']. *)
Record graph := Graph {
  nodes : gset (string * string);
  edges : gset (string * string)
}.

(** The body of one extraction loop: [s.add((m.group(1), m.group(2)))]. *)
Definition add_match (s : gset (string * string)) (m : re_match) :
    gset (string * string) :=
  s ∪ {[ (group m 1, group m 2) ]}.

Definition parse_dot_file (fs : gmap string string) (filepath : string) : M graph :=
  content ← read_file fs filepath;
  let nodes := fold_left add_match (finditer node_pattern content) ∅ in
  let edges := fold_left add_match (finditer edge_pattern content) ∅ in
  mret {| nodes := nodes; edges := edges |}.

Definition node_minus (x : string * string) : string :=
  "  - " +:+ x.1 +:+ " [label=" +:+ x.2 +:+ "]".
Definition node_plus (x : string * string) : string :=
  "  + " +:+ x.1 +:+ " [label=" +:+ x.2 +:+ "]".
Definition edge_minus (x : string * string) : string :=
  "  - " +:+ x.1 +:+ " -> " +:+ x.2.
Definition edge_plus (x : string * string) : string :=
  "  + " +:+ x.1 +:+ " -> " +:+ x.2.

(** One [if only: differences.append(head); for x in sorted(only): ...]
    block; a set is true when it is not empty, and is iterated in the
    order [elements] gives. *)
Definition report (head : string) (fmt : string * string → string)
    (only : gset (string * string)) (differences : list string) : list string :=
  if decide (only = ∅) then differences
  else differences ++ [head] ++ map fmt (sorted (elements only)).

(** The list [differences] of [compare_dot_files] once the four blocks
    have run on the two extracted graphs. *)
Definition diff_lines (graph1 graph2 : graph) : list string :=
  let differences := [] in
  let nodes1 := nodes graph1 in
  let nodes2 := nodes graph2 in
  let nodes_only_in_1 := nodes1 ∖ nodes2 in
  let nodes_only_in_2 := nodes2 ∖ nodes1 in
  let differences :=
    report "Nodes only in reference file:" node_minus nodes_only_in_1 differences in
  let differences :=
    report "Nodes only in generated file:" node_plus nodes_only_in_2 differences in
  let edges1 := edges graph1 in
  let edges2 := edges graph2 in
  let edges_only_in_1 := edges1 ∖ edges2 in
  let edges_only_in_2 := edges2 ∖ edges1 in
  let differences :=
    report "Edges only in reference file:" edge_minus edges_only_in_1 differences in
  let differences :=
    report "Edges only in generated file:" edge_plus edges_only_in_2 differences in
  differences.

(** The lines [Reference: ...] and [Generated: ...] of the summary. *)
Definition counts (who : string) (g : graph) : string :=
  "  " +:+ who +:+ ": " +:+ pretty (size (nodes g)) +:+ " nodes, "
  +:+ pretty (size (edges g)) +:+ " edges" +:+ nl.

(** The part of [compare_dot_files] after the two files are parsed. *)
Definition compare (graph1 graph2 : graph) : bool * string :=
  let differences := diff_lines graph1 graph2 in
  let is_equal := bool_decide (length differences = 0%nat) in
  let summary :=
    if is_equal then "Graphs are structurally identical"
    else
      let summary := "Graphs differ:" +:+ nl in
      let summary := summary +:+ counts "Reference" graph1 in
      let summary := summary +:+ counts "Generated" graph2 in
      if bool_decide (differences ≠ []) then
        summary +:+ nl +:+ "Differences:" +:+ nl +:+ join nl differences
      else summary in
  (is_equal, summary).

Definition compare_dot_files (fs : gmap string string) (file1 file2 : string) :
    M (bool * string) :=
  graph1 ← parse_dot_file fs file1;
  graph2 ← parse_dot_file fs file2;
  mret (compare graph1 graph2).

(** [sys.argv] always holds the script name first.  [Path] keeps the
    spelling of its argument. *)
Definition main (fs : gmap string string) (argv : list string) : M unit :=
  (if bool_decide (length argv ≠ 3%nat) then
     print ("Usage: " +:+ nth 0 argv EmptyString +:+ " <reference.dot> <generated.dot>");;
     sys_exit 1
   else mret tt);;
  let reference_file := nth 1 argv EmptyString in
  let generated_file := nth 2 argv EmptyString in
  (if negb (path_exists fs reference_file) then
     print ("Error: Reference file not found: " +:+ reference_file);;
     sys_exit 1
   else mret tt);;
  (if negb (path_exists fs generated_file) then
     print ("Error: Generated file not found: " +:+ generated_file);;
     sys_exit 1
   else mret tt);;
  '(is_equal, summary) ← compare_dot_files fs reference_file generated_file;
  print summary;;
  if is_equal : bool then sys_exit 0 else sys_exit 1.

End Dotdiff.

(** ** dot2interactive.py *)

Module Dot2interactive.

(** The dictionaries appended to [nodes] and [edges]. *)
Record node := Node {
  id : string;
  label : string;
  group : Z;
  title : string
}.

Record edge := Edge {
  from : string;
  to : string;
  arrows : string
}.

(** The [if]/[elif] chain that sets [group] ("Categorize nodes for
    coloring"). *)
Definition categorize (node_id : string) : Z :=
  if String.prefix "__mod_" node_id then 1
  else if String.prefix "_gfortran_" node_id
          || bool_decide (node_id ∈ ["malloc"; "free"; "memset"; "memmove"; "realloc"])
  then 2
  else if bool_decide (node_id ∈ ["main"; "MAIN__"; "sqrt"; "lround"; "copysign"])
  then 3
  else 4.

Definition hint : string := nl +:+ "Double-click to collapse/expand children".

(** The body of the loop over the node declarations, on the variables
    [nodes], [node_set] and [calls_map]. *)
Definition node_step
    (st : list node * gset string * gmap string (gset string)) (m : re_match) :
    list node * gset string * gmap string (gset string) :=
  let '(nodes, node_set, calls_map) := st in
  let node_id := Re.group m 1 in
  let node_label := Re.group m 2 in
  if decide (node_id ∈ node_set) then (nodes, node_set, calls_map)
  else
    let node_set := node_set ∪ {[ node_id ]} in
    let group := categorize node_id in
    let nodes := nodes ++ [ {| id := node_id; label := node_label;
                               group := group; title := node_label +:+ hint |} ] in
    let calls_map := <[ node_id := ∅ ]> calls_map in
    (nodes, node_set, calls_map).

(** The body of the loop over the edges, on [edges] and [calls_map]. *)
Definition edge_step
    (st : list edge * gmap string (gset string)) (m : re_match) :
    list edge * gmap string (gset string) :=
  let '(edges, calls_map) := st in
  let source := Re.group m 1 in
  let target := Re.group m 2 in
  let edges := edges ++ [ {| from := source; to := target; arrows := "to" |} ] in
  let calls_map :=
    match calls_map !! source with
    | Some callees => <[ source := callees ∪ {[ target ]} ]> calls_map
    | None => calls_map
    end in
  (edges, calls_map).

Definition parse_dot_file (fs : gmap string string) (filename : string) :
    M (list node * list edge * gmap string (gset string)) :=
  let nodes := [] in
  let edges := [] in
  let node_set := ∅ in
  let calls_map := ∅ in
  content ← read_file fs filename;
  let '(nodes, node_set, calls_map) :=
    fold_left node_step (finditer node_pattern content) (nodes, node_set, calls_map) in
  let '(edges, calls_map) :=
    fold_left edge_step (finditer edge_pattern content) (edges, calls_map) in
  mret (nodes, edges, calls_map).

End Dot2interactive.

(** ** Vocabulary of the statements *)

(** The declarations a pattern finds in a text, in textual order, as the
    pairs of their two groups. *)
Definition decls (p : pattern) (content : string) : list (string * string) :=
  map (λ m, (group m 1, group m 2)) (finditer p content).

Abbreviation node_decls := (decls node_pattern).

Abbreviation edge_decls := (decls edge_pattern).

(** The positions of a text, as the suffixes that start there. *)
Fixpoint tails (s : string) : list string :=
  match s with
  | EmptyString => [EmptyString]
  | String _ s' => s :: tails s'
  end.

(** The graph of a text in canonical form: the sets of its declarations. *)
Definition graph_of (content : string) : Dotdiff.graph :=
  {| Dotdiff.nodes := list_to_set (node_decls content);
     Dotdiff.edges := list_to_set (edge_decls content) |}.

(** [l] lists the members of [X] once each, in Python's order on tuples,
    whatever the order in which the set was iterated. *)
Definition listing (l : list (string * string)) (X : gset (string * string)) : Prop :=
  Sorted tuple_le l ∧ NoDup l ∧ (∀ x, x ∈ l ↔ x ∈ X)
  ∧ ∀ l', l' ≡ₚ elements X → sorted l' = l.

(** One block of the report for an already sorted listing. *)
Definition block (head : string) (fmt : string * string → string)
    (listing : list (string * string)) : list string :=
  match listing with
  | [] => []
  | _ => head :: map fmt listing
  end.

(** ** Invariants of the two loops of dot2interactive.py *)

Abbreviation pair_of := (λ m : re_match, (group m 1, group m 2)).

(** What holds of [nodes], [node_set] and [calls_map] after the loop has
    run over the matches [ms]. *)
Record node_inv (ms : list re_match)
    (st : list Dot2interactive.node * gset string * gmap string (gset string)) : Prop := {
  inv_nodup : NoDup (map Dot2interactive.id st.1.1);
  inv_set : ∀ i, i ∈ st.1.2 ↔ i ∈ map Dot2interactive.id st.1.1;
  inv_ids : ∀ i, i ∈ map Dot2interactive.id st.1.1 ↔ i ∈ map (λ m, group m 1) ms;
  inv_node : ∀ n, n ∈ st.1.1 →
    (Dot2interactive.id n, Dot2interactive.label n) ∈ map pair_of ms
    ∧ Dot2interactive.group n = Dot2interactive.categorize (Dot2interactive.id n)
    ∧ Dot2interactive.title n = Dot2interactive.label n +:+ Dot2interactive.hint;
  inv_first : ∀ pre m post, ms = pre ++ m :: post →
    group m 1 ∉ map (λ m, group m 1) pre →
    {| Dot2interactive.id := group m 1; Dot2interactive.label := group m 2;
       Dot2interactive.group := Dot2interactive.categorize (group m 1);
       Dot2interactive.title := group m 2 +:+ Dot2interactive.hint |} ∈ st.1.1;
  inv_calls : ∀ i, st.2 !! i = if decide (i ∈ st.1.2) then Some ∅ else None
}.

(** What holds of [edges] and [calls_map] after the loop over the edge
    matches [ms], started with the map [cm0]. *)
Record edge_inv (cm0 : gmap string (gset string)) (ms : list re_match)
    (st : list Dot2interactive.edge * gmap string (gset string)) : Prop := {
  inv_edges : st.1 = map (λ d, {| Dot2interactive.from := d.1; Dot2interactive.to := d.2; Dot2interactive.arrows := "to" |})
                         (map pair_of ms);
  inv_none : ∀ i, cm0 !! i = None → st.2 !! i = None;
  inv_some : ∀ i s0, cm0 !! i = Some s0 →
    ∃ s, st.2 !! i = Some s ∧ ∀ t, t ∈ s ↔ t ∈ s0 ∨ (i, t) ∈ map pair_of ms
}.

(** ** Runs of characters *)

Fixpoint span (cs : charset) (s : string) : string * string :=
  match s with
  | String c s' =>
      if accepts cs c then let '(a, r) := span cs s' in (String c a, r)
      else (EmptyString, s)
  | EmptyString => (EmptyString, EmptyString)
  end.

Fixpoint all_chars (ok : ascii → bool) (s : string) : bool :=
  match s with
  | String c s' => ok c && all_chars ok s'
  | EmptyString => true
  end.

Definition not_quote (c : ascii) : bool := accepts (NotChr quote) c.

(** The first character after the white space at the head of [r], if any,
    is not [d]. *)
Definition next_is_not (d : ascii) (r : string) : Prop :=
  match (span Whitespace r).2 with
  | String c _ => c ≠ d
  | EmptyString => True
  end.

(** ** Files made of declaration lines *)

Definition q (s : string) : string := String quote (s +:+ String quote EmptyString).

Inductive decl :=
| NodeDecl (id label : string)
| EdgeDecl (source target : string).

(** A line that holds one declaration between two fillers, or no
    declaration at all. *)
Inductive line :=
| Decl (lead : string) (d : decl) (trail : string)
| Plain (text : string).

Definition render_decl (d : decl) : string :=
  match d with
  | NodeDecl i l => q i +:+ " [label=" +:+ q l +:+ "]"
  | EdgeDecl a b => q a +:+ " -> " +:+ q b
  end.

Definition render_line (l : line) : string :=
  match l with
  | Decl lead d trail => lead +:+ render_decl d +:+ trail
  | Plain text => text
  end.

(** The text of a file whose lines are [ls], each ended by a newline. *)
Definition unlines (ls : list string) : string :=
  foldr (λ l acc, l +:+ nl +:+ acc) EmptyString ls.

(** An id or label: not empty, without a quote, and not beginning with
    white space, a bracket or a dash. *)
Definition good_first (c : ascii) : bool :=
  not_quote c && negb (is_space c) && negb (Ascii.eqb "[" c) && negb (Ascii.eqb "-" c).

Definition name_ok (s : string) : bool :=
  match s with
  | String c t => good_first c && all_chars not_quote t
  | EmptyString => false
  end.

(** A filler: text without a quote and without an opening bracket. *)
Definition filler_char (c : ascii) : bool := not_quote c && negb (Ascii.eqb "[" c).

Definition filler_ok (s : string) : bool := all_chars filler_char s.

Definition decl_ok (d : decl) : bool :=
  match d with
  | NodeDecl i l => name_ok i && name_ok l
  | EdgeDecl a b => name_ok a && name_ok b
  end.

Definition no_newline (s : string) : bool :=
  all_chars (λ c, negb (Ascii.eqb "010" c)) s.

Definition line_ok (l : line) : bool :=
  match l with
  | Decl lead d trail => filler_ok lead && decl_ok d && filler_ok trail
  | Plain text => filler_ok text
  end && no_newline (render_line l).

Definition declaration_line (s : string) : Prop :=
  ∃ l, line_ok l = true ∧ s = render_line l.

(** The text goes on with a filler and then ends or opens a quoted string
    that begins like a name. *)
Definition clean_start (r : string) : Prop :=
  ∃ u tl, r = u +:+ tl ∧ filler_ok u = true
    ∧ (tl = EmptyString ∨ ∃ c t, tl = String quote (String c t) ∧ good_first c = true).

Definition node_text (i l rest : string) : string :=
  String quote (i +:+ String quote
    (" [label=" +:+ String quote (l +:+ String quote ("]" +:+ rest)))).

Definition edge_text (a b rest : string) : string :=
  String quote (a +:+ String quote (" -> " +:+ String quote (b +:+ String quote rest))).

(** What a line declares, as the matches of the node pattern
    ([node = true]) or of the edge pattern. *)
Definition line_matches (node : bool) (l : line) : list re_match :=
  match l with
  | Decl _ (NodeDecl i lbl) _ => if node then [[i; lbl]] else []
  | Decl _ (EdgeDecl a b) _ => if node then [] else [[a; b]]
  | Plain _ => []
  end.

(** ** Example files *)

(** A reference file, a generated file that repeats and reorders its
    declarations, and one with a different edge. *)
Definition example_fs : gmap string string :=
  {[ "ref.dot" :=
       q "foo" +:+ " [label=" +:+ q "foo" +:+ "];" +:+ nl +:+
       q "bar" +:+ " [label=" +:+ q "bar" +:+ "];" +:+ nl +:+
       q "foo" +:+ " -> " +:+ q "bar" +:+ ";" +:+ nl;
     "gen.dot" :=
       q "foo" +:+ " -> " +:+ q "bar" +:+ ";" +:+ nl +:+
       q "bar" +:+ " [label=" +:+ q "bar" +:+ "];" +:+ nl +:+
       q "foo" +:+ " [label=" +:+ q "foo" +:+ "];" +:+ nl +:+
       q "foo" +:+ " -> " +:+ q "bar" +:+ ";" +:+ nl +:+
       q "bar" +:+ " [label=" +:+ q "bar" +:+ "];" +:+ nl;
     "other.dot" :=
       q "foo" +:+ " [label=" +:+ q "foo" +:+ "];" +:+ nl +:+
       q "bar" +:+ " [label=" +:+ q "bar" +:+ "];" +:+ nl +:+
       q "foo" +:+ " -> " +:+ q "baz" +:+ ";" +:+ nl ]}.

Definition twice_content : string :=
  q "a" +:+ " [label=" +:+ q "x" +:+ "]" +:+ nl +:+
  q "a" +:+ " [label=" +:+ q "y" +:+ "]" +:+ nl.

Definition twice_fs : gmap string string := {[ "twice.dot" := twice_content ]}.

Definition noise_fs : gmap string string :=
  {[ "noise.dot" := "digraph callgraph { rankdir=LR; }" +:+ nl ]}.

Definition two_lines : list string :=
  [ "  " +:+ q "main" +:+ " -> " +:+ q "helper" +:+ ";";
    q "main" +:+ " [label=" +:+ q "main" +:+ "];" ].

(** The node and the edge that a line declares. *)
Definition declared_nodes (l : line) : list (string * string) :=
  match l with
  | Decl _ (NodeDecl i lbl) _ => [(i, lbl)]
  | _ => []
  end.

Definition declared_edges (l : line) : list (string * string) :=
  match l with
  | Decl _ (EdgeDecl a b) _ => [(a, b)]
  | _ => []
  end.

(** ** tests/test_gcc_compatibility.py *)

Module Test_gcc_compatibility.

(** [s.split(sep)] for a separator of one character: the pieces between
    the separators, empty pieces included. *)
Fixpoint split_on (sep : ascii) (s : string) : list string :=
  match s with
  | EmptyString => [EmptyString]
  | String c s' =>
      if Ascii.eqb sep c then EmptyString :: split_on sep s'
      else match split_on sep s' with
           | x :: l => String c x :: l
           | [] => [String c EmptyString]
           end
  end.

(** [s.split()]: the maximal runs of characters that are not white
    space. *)
Fixpoint split_ws (s : string) : list string :=
  match s with
  | EmptyString => []
  | String c s' =>
      if is_space c then split_ws s'
      else match s' with
           | EmptyString => [String c EmptyString]
           | String d _ =>
               if is_space d then String c EmptyString :: split_ws s'
               else match split_ws s' with
                    | x :: l => String c x :: l
                    | [] => [String c EmptyString]
                    end
           end
  end.

(** ['.' in part] *)
Fixpoint contains (c : ascii) (s : string) : bool :=
  match s with
  | EmptyString => false
  | String d s' => Ascii.eqb c d || contains c s'
  end.

Definition is_decimal (c : ascii) : bool :=
  let n := nat_of_ascii c in (48 <=? n)%nat && (n <=? 57)%nat.

(** [c.isdigit()] below 256: the decimal digits and the superscripts
    two, three and one. *)
Definition isdigit (c : ascii) : bool :=
  let n := nat_of_ascii c in
  is_decimal c || (n =? 178)%nat || (n =? 179)%nat || (n =? 185)%nat.

Definition digit_value (c : ascii) : Z := Z.of_nat (nat_of_ascii c) - 48.

(** The digits of a decimal literal; an underscore may stand between two
    digits.  [after_digit] tells whether the previous character was a
    digit. *)
Fixpoint digits_value (acc : Z) (after_digit : bool) (s : string) : option Z :=
  match s with
  | EmptyString => if after_digit then Some acc else None
  | String c s' =>
      if is_decimal c then digits_value (10 * acc + digit_value c) true s'
      else if Ascii.eqb "_" c then
        if after_digit then digits_value acc false s' else None
      else None
  end.

Definition lstrip (s : string) : string := (span Whitespace s).2.

Fixpoint rstrip (s : string) : string :=
  match s with
  | EmptyString => EmptyString
  | String c s' =>
      match rstrip s' with
      | EmptyString => if is_space c then EmptyString else String c EmptyString
      | r => String c r
      end
  end.

(** [int(s)] in base ten: white space around the literal is dropped, a
    sign may come first; [None] stands for [ValueError].  The limit on
    the length of the literal of recent interpreters is left out. *)
Definition py_int (s : string) : option Z :=
  match rstrip (lstrip s) with
  | String "+" body => digits_value 0 false body
  | String "-" body => Z.opp <$> digits_value 0 false body
  | body => digits_value 0 false body
  end.

Inductive value_error := ValueError.

(** The loop of [get_gcc_version] over the parts of the first line. *)
Fixpoint first_version (parts : list string) : value_error + option Z :=
  match parts with
  | [] => inr None
  | part :: parts' =>
      if contains "." part
         && match part with String c _ => isdigit c | EmptyString => false end
      then
        match py_int (hd EmptyString (split_on "." part)) with
        | Some n => inr (Some n)
        | None => inl ValueError
        end
      else first_version parts'
  end.

(** [get_gcc_version], as a function of the standard output of
    [gcc --version]. *)
Definition get_gcc_version (stdout : string) : value_error + option Z :=
  let first_line := hd EmptyString (split_on "010" stdout) in
  first_version (split_ws first_line).

(** [s * n] *)
Fixpoint str_mul (s : string) (n : nat) : string :=
  match n with
  | O => EmptyString
  | S n' => s +:+ str_mul s n'
  end.

(** [for x in l: body(x)] *)
Fixpoint for_each {A} (l : list A) (body : A → M unit) : M unit :=
  match l with
  | [] => mret tt
  | x :: l' => body x;; for_each l' body
  end.

(** The wrapper around the comparator of dotdiff.py. *)
Definition compare_dot_files (fs : gmap string string)
    (generated_file reference_file : string) : M bool :=
  '(is_equal, summary) ← Dotdiff.compare_dot_files fs reference_file generated_file;
  if is_equal : bool then mret true
  else
    print (nl +:+ "   Structural differences found:");;
    print ("   " +:+ str_mul "=" 50);;
    for_each (split_on "010" summary) (λ line, print ("   " +:+ line));;
    print ("   " +:+ str_mul "=" 50 +:+ nl);;
    mret false.

End Test_gcc_compatibility.

(** ** Vocabulary for the test driver *)

(** The test of the loop of [get_gcc_version]: the part holds a dot and
    begins with a digit. *)
Definition looks_like_version (part : string) : bool :=
  Test_gcc_compatibility.contains "." part
  && match part with
     | String c _ => Test_gcc_compatibility.isdigit c
     | EmptyString => false
     end.

(** The parts of the first line of the output of [gcc --version]. *)
Definition split_ws_first_line (stdout : string) : list string :=
  Test_gcc_compatibility.split_ws
    (hd EmptyString (Test_gcc_compatibility.split_on "010" stdout)).

(** The text holds no white space. *)
Definition no_space (s : string) : bool := all_chars (λ c, negb (is_space c)) s.

(** The number that a string of decimal digits denotes, after the digits
    already read into [acc]. *)
Fixpoint decimal (acc : Z) (ds : string) : Z :=
  match ds with
  | EmptyString => acc
  | String c ds' => decimal (10 * acc + Test_gcc_compatibility.digit_value c) ds'
  end.

Definition three_lines : list line :=
  [ Decl EmptyString (NodeDecl "main" "main") ";";
    Plain "// calls";
    Decl "  " (EdgeDecl "main" "helper") ";" ].

(** ** Strings *)

Lemma string_app_cons c s t : String c s +:+ t = String c (s +:+ t).
Proof. reflexivity. Qed.

Lemma string_app_nil_l t : EmptyString +:+ t = t.
Proof. reflexivity. Qed.

Lemma string_app_nil_r s : s +:+ EmptyString = s.
Proof. induction s as [|c s IH]; [done|]. by rewrite string_app_cons, IH. Qed.

Lemma string_app_assoc (a b c : string) : (a +:+ b) +:+ c = a +:+ (b +:+ c).
Proof.
  induction a as [|x a IH]; [done|].
  change (String x ((a +:+ b) +:+ c) = String x (a +:+ (b +:+ c))). by rewrite IH.
Qed.

Lemma string_length_app s t :
  String.length (s +:+ t) = (String.length s + String.length t)%nat.
Proof.
  induction s as [|c s IH]; [done|].
  rewrite string_app_cons. simpl. by rewrite IH.
Qed.

Ltac str_norm :=
  repeat (rewrite string_app_assoc || rewrite string_app_cons
          || rewrite string_app_nil_l).

Lemma all_chars_app ok s t :
  all_chars ok (s +:+ t) = all_chars ok s && all_chars ok t.
Proof.
  induction s as [|c s IH]; [done|].
  rewrite string_app_cons. simpl. by rewrite IH, andb_assoc.
Qed.

Lemma all_chars_impl (ok ok' : ascii → bool) s :
  (∀ c, ok c = true → ok' c = true) → all_chars ok s = true → all_chars ok' s = true.
Proof.
  intros H. induction s as [|c s IH]; [done|]. simpl.
  rewrite !andb_true_iff. intros [? ?]. auto.
Qed.

(** ** The monad *)

Lemma bind_inr {A B} (m : M A) (f : A → M B) t t' a :
  m t = (t', inr a) → (m ≫= f) t = f a t'.
Proof. intros H. unfold mbind, M_bind. by rewrite H. Qed.

Lemma bind_inl {A B} (m : M A) (f : A → M B) t t' e :
  m t = (t', inl e) → (m ≫= f) t = (t', inl e).
Proof. intros H. unfold mbind, M_bind. by rewrite H. Qed.

Lemma read_file_Some fs path content t :
  fs !! path = Some content →
  read_file fs path t = (t ++ [Opened path], inr content).
Proof. intros H. unfold read_file. by rewrite H. Qed.



(** ** The matcher *)

Lemma greedy_suffix cs k s taken g rest :
  (∀ s g rest, k s = Some (g, rest) → ∃ pre, s = pre +:+ rest) →
  greedy cs k s = Some (taken, g, rest) → ∃ pre, s = pre +:+ rest.
Proof.
  intros Hk. revert taken.
  assert (Hstop : ∀ s taken, stop k s = Some (taken, g, rest) → ∃ pre, s = pre +:+ rest).
  { intros s' taken. unfold stop. destruct (k s') as [[g' rest']|] eqn:E; [|done].
    intros H. simplify_eq. by apply (Hk _ _ _ E). }
  induction s as [|c s IH]; intros taken; simpl.
  - apply Hstop.
  - destruct (accepts cs c); [|apply Hstop].
    destruct (greedy cs k s) as [[[taken' g'] rest']|] eqn:E; [|apply Hstop].
    simpl. intros H. simplify_eq.
    destruct (IH _ eq_refl) as [pre ->]. by exists (String c pre).
Qed.

Lemma match_here_suffix p s g rest :
  match_here p s = Some (g, rest) → ∃ pre, s = pre +:+ rest.
Proof.
  revert s g rest. induction p as [|[cs|least capture cs] p IH]; intros s g rest; simpl.
  - intros H. simplify_eq. by exists EmptyString.
  - destruct s as [|c s]; [done|]. destruct (accepts cs c); [|done].
    intros H. destruct (IH _ _ _ H) as [pre ->]. by exists (String c pre).
  - destruct least.
    + destruct s as [|c s]; [done|]. destruct (accepts cs c); [|done].
      destruct (greedy cs (match_here p) s) as [[[taken g'] rest']|] eqn:E; [|done].
      simpl. intros H. simplify_eq.
      destruct (greedy_suffix _ _ _ _ _ _ IH E) as [pre ->]. by exists (String c pre).
    + destruct (greedy cs (match_here p) s) as [[[taken g'] rest']|] eqn:E; [|done].
      intros H. simplify_eq. by apply (greedy_suffix _ _ _ _ _ _ IH E).
Qed.

Lemma finditer_from_skip p pre rest :
  finditer_from p (String.length pre) (pre +:+ rest) = finditer_from p 0 rest.
Proof.
  induction pre as [|c pre IH]; [done|].
  rewrite string_app_cons. simpl. exact IH.
Qed.

(** [finditer] on a pattern that begins with a single character: a match
    at the head is reported and the scan goes on after it; otherwise the
    scan moves by one character. *)
Lemma finditer_cons cs p c s :
  finditer (One cs :: p) (String c s)
  = match match_here (One cs :: p) (String c s) with
    | Some (g, rest) => g :: finditer (One cs :: p) rest
    | None => finditer (One cs :: p) s
    end.
Proof.
  unfold finditer. cbn [finditer_from].
  destruct (match_here (One cs :: p) (String c s)) as [[g rest]|] eqn:E; [|done].
  f_equal. simpl in E. destruct (accepts cs c); [|done].
  apply match_here_suffix in E as [pre ->].
  rewrite <- (finditer_from_skip _ pre rest). f_equal.
  cbn [String.length]. rewrite string_length_app. lia.
Qed.

Lemma finditer_no_match p s :
  (∀ t, t ∈ tails s → match_here p t = None) → finditer p s = [].
Proof.
  unfold finditer. induction s as [|c s IH]; intros H; [done|].
  cbn [finditer_from]. rewrite (H (String c s)) by (simpl; left).
  apply IH. intros t Ht. apply H. simpl. by right.
Qed.

Lemma finditer_skip p junk rest :
  (∀ j, j ∈ tails junk → j ≠ EmptyString → match_here p (j +:+ rest) = None) →
  finditer p (junk +:+ rest) = finditer p rest.
Proof.
  unfold finditer. induction junk as [|c junk IH]; intros H; [done|].
  rewrite string_app_cons. cbn [finditer_from]. rewrite <- string_app_cons.
  rewrite (H (String c junk)) by (simpl; by first [left|idtac]).
  apply IH. intros j Hj. apply H. simpl. by right.
Qed.

Lemma span_app cs a r :
  all_chars (accepts cs) a = true →
  match r with String c _ => accepts cs c = false | EmptyString => True end →
  span cs (a +:+ r) = (a, r).
Proof.
  intros Ha Hr. induction a as [|c a IH].
  - rewrite string_app_nil_l. destruct r as [|c r]; [done|]. simpl. by rewrite Hr.
  - simpl in Ha. apply andb_true_iff in Ha as [Hc Ha].
    rewrite string_app_cons. simpl. rewrite Hc, (IH Ha). done.
Qed.

Lemma greedy_exclusive cs k s :
  (∀ c t, accepts cs c = true → k (String c t) = None) →
  greedy cs k s
  = match k (span cs s).2 with
    | Some (g, rest) => Some ((span cs s).1, g, rest)
    | None => None
    end.
Proof.
  intros Hex. induction s as [|c s IH]; simpl.
  - unfold stop. by destruct (k EmptyString) as [[? ?]|].
  - destruct (accepts cs c) eqn:Hc.
    + rewrite IH. destruct (span cs s) as [a r]. simpl.
      destruct (k r) as [[g rest]|]; [done|].
      unfold stop. by rewrite (Hex c s Hc).
    + unfold stop. simpl. by destruct (k (String c s)) as [[? ?]|].
Qed.

Lemma match_here_Many least capture cs p s :
  match_here (Many least capture cs :: p) s
  = match
      (if least then
         match s with
         | String c s' =>
             if accepts cs c then take c (greedy cs (match_here p) s') else None
         | EmptyString => None
         end
       else greedy cs (match_here p) s)
    with
    | Some (taken, groups, rest) =>
        Some (if capture then taken :: groups else groups, rest)
    | None => None
    end.
Proof. reflexivity. Qed.

Lemma match_here_One cs p c s :
  match_here (One cs :: p) (String c s)
  = if accepts cs c then match_here p s else None.
Proof. reflexivity. Qed.

(** A repetition in front of a literal that its class excludes never
    succeeds by giving characters back: it takes the longest run. *)
Lemma match_here_many least capture cs d p s :
  (∀ c, accepts cs c = true → accepts (Chr d) c = false) →
  match_here (Many least capture cs :: One (Chr d) :: p) s
  = if least && bool_decide ((span cs s).1 = EmptyString) then None
    else match match_here (One (Chr d) :: p) (span cs s).2 with
         | Some (g, rest) => Some (if capture then (span cs s).1 :: g else g, rest)
         | None => None
         end.
Proof.
  intros Hex.
  assert (Hk : ∀ c t, accepts cs c = true →
                      match_here (One (Chr d) :: p) (String c t) = None).
  { intros c t Hc. cbn [match_here]. by rewrite (Hex c Hc). }
  rewrite match_here_Many.
  set (k := match_here (One (Chr d) :: p)) in *. clearbody k.
  destruct least; cbn [andb].
  - destruct s as [|c s]; [done|]. cbn [span].
    destruct (accepts cs c) eqn:Hc; [|done].
    rewrite (greedy_exclusive _ _ _ Hk).
    destruct (span cs s) as [a r]. cbn [fst snd].
    rewrite bool_decide_eq_false_2 by done.
    by destruct (k r) as [[g rest]|].
  - rewrite (greedy_exclusive _ _ _ Hk).
    by destruct (k (span cs s).2) as [[g rest]|].
Qed.

(** ** The two patterns on quoted text *)

(** The common front of the two patterns, a quoted group and white space
    followed by the literal [d], on a text that opens a quoted string. *)
Lemma quoted_front d p a r :
  is_space d = false →
  all_chars not_quote a = true →
  match_here (One (Chr quote) :: Many true true (NotChr quote) :: One (Chr quote)
              :: Many false false Whitespace :: One (Chr d) :: p)
             (String quote (a +:+ String quote r))
  = if bool_decide (a = EmptyString) then None
    else match match_here (One (Chr d) :: p) (span Whitespace r).2 with
         | Some (g, rest) => Some (a :: g, rest)
         | None => None
         end.
Proof.
  intros Hd Ha. rewrite match_here_One. cbn [accepts]. rewrite Ascii.eqb_refl.
  rewrite match_here_many by (intros c; cbn [accepts]; by intros ->%negb_true_iff).
  rewrite span_app; [|exact Ha|cbn [accepts]; by rewrite Ascii.eqb_refl].
  cbn [fst snd andb]. case_bool_decide; [done|].
  rewrite match_here_One. cbn [accepts]. rewrite Ascii.eqb_refl.
  rewrite match_here_many.
  2:{ intros c Hc. cbn [accepts] in *. apply Ascii.eqb_neq. intros <-. congruence. }
  cbn [andb].
  by destruct (match_here (One (Chr d) :: p) (span Whitespace r).2) as [[g rest]|].
Qed.

Lemma quoted_front_open p a :
  all_chars not_quote a = true →
  match_here (One (Chr quote) :: Many true true (NotChr quote) :: One (Chr quote) :: p)
             (String quote a) = None.
Proof.
  intros Ha. rewrite match_here_One. cbn [accepts]. rewrite Ascii.eqb_refl.
  rewrite match_here_many by (intros c; cbn [accepts]; by intros ->%negb_true_iff).
  pose proof (span_app (NotChr quote) a EmptyString Ha I) as Hs.
  rewrite string_app_nil_r in Hs. rewrite Hs. cbn [fst snd].
  by destruct (_ && _).
Qed.

Lemma quoted_front_fail d p a r :
  is_space d = false →
  all_chars not_quote a = true →
  next_is_not d r →
  match_here (One (Chr quote) :: Many true true (NotChr quote) :: One (Chr quote)
              :: Many false false Whitespace :: One (Chr d) :: p)
             (String quote (a +:+ String quote r)) = None.
Proof.
  intros Hd Ha Hr. rewrite quoted_front by done.
  case_bool_decide; [done|]. unfold next_is_not in Hr.
  destruct (span Whitespace r).2 as [|c t]; [done|].
  rewrite match_here_One. cbn [accepts].
  by rewrite (proj2 (Ascii.eqb_neq d c)) by done.
Qed.

Lemma node_pattern_front :
  node_pattern
  = One (Chr quote) :: Many true true (NotChr quote) :: One (Chr quote)
    :: Many false false Whitespace :: One (Chr "[")
    :: literal "label=" ++ [One (Chr quote); Many true true (NotChr quote);
                            One (Chr quote); One (Chr "]")].
Proof. reflexivity. Qed.

Lemma edge_pattern_front :
  edge_pattern
  = One (Chr quote) :: Many true true (NotChr quote) :: One (Chr quote)
    :: Many false false Whitespace :: One (Chr "-")
    :: [One (Chr ">"); Many false false Whitespace; One (Chr quote);
        Many true true (NotChr quote); One (Chr quote)].
Proof. reflexivity. Qed.

Lemma not_quote_start p c s :
  c ≠ quote → match_here (One (Chr quote) :: p) (String c s) = None.
Proof.
  intros Hc. rewrite match_here_One. cbn [accepts].
  by rewrite (proj2 (Ascii.eqb_neq quote c)) by done.
Qed.

Ltac lit_step := rewrite match_here_One; cbn [accepts]; rewrite Ascii.eqb_refl.

Ltac many_not_quote :=
  rewrite match_here_many by (intros c; cbn [accepts]; by intros ->%negb_true_iff).

(** A node declaration, written with one space, matches the node
    pattern. *)
Lemma node_pattern_match i l rest :
  i ≠ EmptyString → all_chars not_quote i = true →
  l ≠ EmptyString → all_chars not_quote l = true →
  match_here node_pattern
    (String quote (i +:+ String quote
       (" [label=" +:+ String quote (l +:+ String quote ("]" +:+ rest)))))
  = Some ([i; l], rest).
Proof.
  intros Hi Hiq Hl Hlq. rewrite node_pattern_front, quoted_front by done.
  rewrite bool_decide_eq_false_2 by done.
  match goal with
  | |- context [" [label=" +:+ ?X] =>
      change (" [label=" +:+ X) with (" " +:+ String "[" ("label=" +:+ X))
  end.
  rewrite span_app by reflexivity. cbn [fst snd literal app]. str_norm.
  do 8 lit_step. many_not_quote.
  rewrite span_app; [|exact Hlq|cbn [accepts]; by rewrite Ascii.eqb_refl].
  cbn [fst snd andb]. rewrite bool_decide_eq_false_2 by done.
  do 2 lit_step. reflexivity.
Qed.

(** An edge, written with one space around the arrow, matches the edge
    pattern. *)
Lemma edge_pattern_match a b rest :
  a ≠ EmptyString → all_chars not_quote a = true →
  b ≠ EmptyString → all_chars not_quote b = true →
  match_here edge_pattern
    (String quote (a +:+ String quote (" -> " +:+ String quote (b +:+ String quote rest))))
  = Some ([a; b], rest).
Proof.
  intros Ha Haq Hb Hbq. rewrite edge_pattern_front, quoted_front by done.
  rewrite bool_decide_eq_false_2 by done.
  match goal with
  | |- context [" -> " +:+ ?X] =>
      change (" -> " +:+ X) with (" " +:+ String "-" (String ">" (" " +:+ X)))
  end.
  rewrite span_app by reflexivity. cbn [fst snd].
  do 2 lit_step.
  rewrite match_here_many
    by (intros c Hc; cbn [accepts] in *; apply Ascii.eqb_neq; by intros <-).
  rewrite span_app; [|reflexivity|cbn [accepts]; reflexivity].
  cbn [fst snd andb]. lit_step. many_not_quote.
  rewrite span_app; [|exact Hbq|cbn [accepts]; by rewrite Ascii.eqb_refl].
  cbn [fst snd andb]. rewrite bool_decide_eq_false_2 by done.
  lit_step. reflexivity.
Qed.

(** A pattern that begins with a quote finds nothing in text without a
    quote. *)
Lemma finditer_pass p u r :
  all_chars not_quote u = true →
  finditer (One (Chr quote) :: p) (u +:+ r) = finditer (One (Chr quote) :: p) r.
Proof.
  intros Hu. induction u as [|c u IH]; [done|].
  simpl in Hu. apply andb_true_iff in Hu as [Hc Hu].
  rewrite string_app_cons, finditer_cons, not_quote_start; [by apply IH|].
  intros ->. unfold not_quote in Hc. cbn [accepts] in Hc.
  by rewrite Ascii.eqb_refl in Hc.
Qed.

(** No match at a quote: the scan passes it and the quote-free text
    behind it. *)
Lemma finditer_fail p a r :
  match_here (One (Chr quote) :: p) (String quote (a +:+ r)) = None →
  all_chars not_quote a = true →
  finditer (One (Chr quote) :: p) (String quote (a +:+ r))
  = finditer (One (Chr quote) :: p) r.
Proof. intros Hm Ha. rewrite finditer_cons, Hm. by apply finditer_pass. Qed.

(** ** Scanning declaration lines *)

Lemma filler_not_quote u : filler_ok u = true → all_chars not_quote u = true.
Proof.
  apply all_chars_impl. intros c. unfold filler_char. by intros [? ?]%andb_true_iff.
Qed.

Lemma name_ok_inv s :
  name_ok s = true →
  ∃ c t, s = String c t ∧ good_first c = true ∧ all_chars not_quote s = true.
Proof.
  destruct s as [|c t]; [done|]. simpl. intros [Hc Ht]%andb_true_iff.
  exists c, t. repeat split; [done|]. simpl. rewrite Ht, andb_true_r.
  unfold good_first in Hc. by repeat apply andb_true_iff in Hc as [Hc ?].
Qed.

Lemma good_first_inv c :
  good_first c = true →
  c ≠ quote ∧ is_space c = false ∧ c ≠ "["%char ∧ c ≠ "-"%char.
Proof.
  unfold good_first. rewrite !andb_true_iff, !negb_true_iff.
  intros [[[Hq Hs] Hb] Hd]. repeat split; try done.
  - intros ->. unfold not_quote in Hq. cbn [accepts] in Hq.
    by rewrite Ascii.eqb_refl in Hq.
  - intros ->. by rewrite Ascii.eqb_refl in Hb.
  - intros ->. by rewrite Ascii.eqb_refl in Hd.
Qed.

Lemma next_is_not_space d c s :
  is_space c = true → next_is_not d s → next_is_not d (String c s).
Proof.
  unfold next_is_not. intros Hc. cbn [span accepts]. rewrite Hc.
  by destruct (span Whitespace s).
Qed.

Lemma next_is_not_char d c s :
  is_space c = false → c ≠ d → next_is_not d (String c s).
Proof. unfold next_is_not. intros Hc. cbn [span accepts]. by rewrite Hc. Qed.

Lemma next_is_not_nil d : next_is_not d EmptyString.
Proof. done. Qed.

Lemma next_is_not_name d s r :
  name_ok s = true → d = "["%char ∨ d = "-"%char → next_is_not d (s +:+ r).
Proof.
  intros (c & t & -> & Hc & _)%name_ok_inv Hd.
  apply good_first_inv in Hc as (_ & Hs & Hb & Hm).
  rewrite string_app_cons. apply next_is_not_char; [done|]. by destruct Hd as [-> | ->].
Qed.

Lemma next_is_not_clean r : clean_start r → next_is_not "[" r.
Proof.
  intros (u & tl & -> & Hu & Htl). induction u as [|c u IH].
  - rewrite string_app_nil_l. destruct Htl as [->|(c & t & -> & _)]; [done|].
    by apply next_is_not_char.
  - rewrite string_app_cons. simpl in Hu. apply andb_true_iff in Hu as [Hc Hu].
    destruct (is_space c) eqn:Hs.
    + apply next_is_not_space; auto.
    + apply next_is_not_char; [done|].
      unfold filler_char in Hc. apply andb_true_iff in Hc as [_ Hc].
      intros ->. by rewrite Ascii.eqb_refl in Hc.
Qed.

Lemma clean_start_app u r : filler_ok u = true → clean_start r → clean_start (u +:+ r).
Proof.
  intros Hu (u' & tl & -> & Hu' & Htl). exists (u +:+ u'), tl.
  rewrite string_app_assoc. split; [done|]. split; [|done].
  unfold filler_ok. rewrite all_chars_app. by apply andb_true_iff.
Qed.

Lemma clean_start_nil : clean_start EmptyString.
Proof. exists EmptyString, EmptyString. repeat split; auto. Qed.

Lemma clean_start_name u s r :
  filler_ok u = true → name_ok s = true → clean_start (u +:+ String quote (s +:+ r)).
Proof.
  intros Hu (c & t & -> & Hc & _)%name_ok_inv.
  exists u, (String quote (String c (t +:+ r))). repeat split; [done|].
  right. by exists c, (t +:+ r).
Qed.

Lemma fail_at_close d p r :
  is_space d = false → d = "["%char ∨ d = "-"%char →
  clean_start r →
  match_here (One (Chr quote) :: Many true true (NotChr quote) :: One (Chr quote)
              :: Many false false Whitespace :: One (Chr d) :: p)
             (String quote r) = None.
Proof.
  intros Hd Hd' (u & tl & -> & Hu & Htl). apply filler_not_quote in Hu.
  destruct Htl as [->|(c & t & -> & Hc)].
  - rewrite string_app_nil_r. by apply quoted_front_open.
  - apply quoted_front_fail; try done.
    apply good_first_inv in Hc as (_ & Hs & Hb & Hm).
    apply next_is_not_char; [done|]. by destruct Hd' as [-> | ->].
Qed.

Section scan_lines.

Variables (i l rest : string).
Hypothesis (Hi : name_ok i = true) (Hl : name_ok l = true).
Hypothesis (Hrest : clean_start rest).

Lemma node_pattern_on_node :
  finditer node_pattern (node_text i l rest) = [i; l] :: finditer node_pattern rest.
Proof using Hi Hl.
  destruct (name_ok_inv _ Hi) as (ci & ti & Ei & _ & Hiq).
  destruct (name_ok_inv _ Hl) as (cl & tl & El & _ & Hlq).
  unfold node_text. rewrite node_pattern_front at 1. rewrite finditer_cons.
  rewrite <- node_pattern_front.
  rewrite node_pattern_match; [done|by subst|done|by subst|done].
Qed.

Lemma edge_pattern_on_edge :
  finditer edge_pattern (edge_text i l rest) = [i; l] :: finditer edge_pattern rest.
Proof using Hi Hl.
  destruct (name_ok_inv _ Hi) as (ci & ti & Ei & _ & Hiq).
  destruct (name_ok_inv _ Hl) as (cl & tl & El & _ & Hlq).
  unfold edge_text. rewrite edge_pattern_front at 1. rewrite finditer_cons.
  rewrite <- edge_pattern_front.
  rewrite edge_pattern_match; [done|by subst|done|by subst|done].
Qed.

Lemma edge_pattern_on_node :
  finditer edge_pattern (node_text i l rest) = finditer edge_pattern rest.
Proof using Hi Hl Hrest.
  destruct (name_ok_inv _ Hi) as (ci & ti & Ei & _ & Hiq).
  destruct (name_ok_inv _ Hl) as (cl & tl & El & _ & Hlq).
  unfold node_text. rewrite edge_pattern_front.
  rewrite finditer_fail; [|apply quoted_front_fail; [done..|]|done].
  2:{ str_norm. apply next_is_not_space; [done|]. by apply next_is_not_char. }
  rewrite finditer_fail; [|apply quoted_front_fail; [done..|]|done].
  2:{ apply next_is_not_name; auto. }
  rewrite finditer_fail; [|apply quoted_front_fail; [done..|]|done].
  2:{ str_norm. by apply next_is_not_char. }
  rewrite finditer_fail; [done| |done].
  apply fail_at_close; [done|auto|].
  apply (clean_start_app "]"); done.
Qed.

Lemma node_pattern_on_edge :
  finditer node_pattern (edge_text i l rest) = finditer node_pattern rest.
Proof using Hi Hl Hrest.
  destruct (name_ok_inv _ Hi) as (ci & ti & Ei & _ & Hiq).
  destruct (name_ok_inv _ Hl) as (cl & tl & El & _ & Hlq).
  unfold edge_text. rewrite node_pattern_front.
  rewrite finditer_fail; [|apply quoted_front_fail; [done..|]|done].
  2:{ str_norm. apply next_is_not_space; [done|]. by apply next_is_not_char. }
  rewrite finditer_fail; [|apply quoted_front_fail; [done..|]|done].
  2:{ apply next_is_not_name; auto. }
  rewrite finditer_fail; [|apply quoted_front_fail; [done..|]|done].
  2:{ by apply next_is_not_clean. }
  rewrite <- (string_app_nil_l rest) at 1.
  rewrite finditer_fail; [done| |done].
  rewrite string_app_nil_l. apply fail_at_close; [done|auto|done].
Qed.

End scan_lines.

Lemma finditer_pass_node u r :
  all_chars not_quote u = true →
  finditer node_pattern (u +:+ r) = finditer node_pattern r.
Proof. rewrite node_pattern_front. apply finditer_pass. Qed.

Lemma finditer_pass_edge u r :
  all_chars not_quote u = true →
  finditer edge_pattern (u +:+ r) = finditer edge_pattern r.
Proof. rewrite edge_pattern_front. apply finditer_pass. Qed.

Lemma render_node_line lead i l trail rest :
  render_line (Decl lead (NodeDecl i l) trail) +:+ nl +:+ rest
  = lead +:+ node_text i l (trail +:+ nl +:+ rest).
Proof. unfold render_line, render_decl, node_text, q. by str_norm. Qed.

Lemma render_edge_line lead a b trail rest :
  render_line (Decl lead (EdgeDecl a b) trail) +:+ nl +:+ rest
  = lead +:+ edge_text a b (trail +:+ nl +:+ rest).
Proof. unfold render_line, render_decl, edge_text, q. by str_norm. Qed.

Lemma line_ok_inv l :
  line_ok l = true →
  match l with
  | Decl lead (NodeDecl a b) trail | Decl lead (EdgeDecl a b) trail =>
      filler_ok lead = true ∧ name_ok a = true ∧ name_ok b = true
      ∧ filler_ok trail = true
  | Plain text => filler_ok text = true
  end.
Proof.
  unfold line_ok. intros [H _]%andb_true_iff.
  destruct l as [lead [a b|a b] trail|text]; [| |done];
    simpl in H; apply andb_true_iff in H as [[Hlead [Ha Hb]%andb_true_iff]%andb_true_iff Htrail];
    auto.
Qed.

Lemma clean_start_line l rest :
  line_ok l = true → clean_start rest → clean_start (render_line l +:+ nl +:+ rest).
Proof.
  intros Hl Hrest. apply line_ok_inv in Hl.
  destruct l as [lead [a b|a b] trail|text].
  - destruct Hl as (Hlead & Ha & Hb & Htrail). rewrite render_node_line.
    by apply clean_start_name.
  - destruct Hl as (Hlead & Ha & Hb & Htrail). rewrite render_edge_line.
    by apply clean_start_name.
  - simpl. apply clean_start_app; [done|]. by apply (clean_start_app nl).
Qed.

Lemma finditer_node_line l rest :
  line_ok l = true → clean_start rest →
  finditer node_pattern (render_line l +:+ nl +:+ rest)
  = line_matches true l ++ finditer node_pattern rest.
Proof.
  intros Hl Hrest. apply line_ok_inv in Hl.
  destruct l as [lead [a b|a b] trail|text].
  - destruct Hl as (Hlead & Ha & Hb & Htrail). rewrite render_node_line.
    rewrite finditer_pass_node by by apply filler_not_quote.
    rewrite node_pattern_on_node by done.
    rewrite finditer_pass_node by by apply filler_not_quote.
    by rewrite finditer_pass_node by done.
  - destruct Hl as (Hlead & Ha & Hb & Htrail). rewrite render_edge_line.
    rewrite finditer_pass_node by by apply filler_not_quote.
    rewrite node_pattern_on_edge; [|done..|].
    2:{ apply clean_start_app; [done|]. by apply (clean_start_app nl). }
    rewrite finditer_pass_node by by apply filler_not_quote.
    by rewrite finditer_pass_node by done.
  - simpl. rewrite finditer_pass_node by by apply filler_not_quote.
    by rewrite finditer_pass_node by done.
Qed.

Lemma finditer_edge_line l rest :
  line_ok l = true → clean_start rest →
  finditer edge_pattern (render_line l +:+ nl +:+ rest)
  = line_matches false l ++ finditer edge_pattern rest.
Proof.
  intros Hl Hrest. apply line_ok_inv in Hl.
  destruct l as [lead [a b|a b] trail|text].
  - destruct Hl as (Hlead & Ha & Hb & Htrail). rewrite render_node_line.
    rewrite finditer_pass_edge by by apply filler_not_quote.
    rewrite edge_pattern_on_node; [|done..|].
    2:{ apply clean_start_app; [done|]. by apply (clean_start_app nl). }
    rewrite finditer_pass_edge by by apply filler_not_quote.
    by rewrite finditer_pass_edge by done.
  - destruct Hl as (Hlead & Ha & Hb & Htrail). rewrite render_edge_line.
    rewrite finditer_pass_edge by by apply filler_not_quote.
    rewrite edge_pattern_on_edge by done.
    rewrite finditer_pass_edge by by apply filler_not_quote.
    by rewrite finditer_pass_edge by done.
  - simpl. rewrite finditer_pass_edge by by apply filler_not_quote.
    by rewrite finditer_pass_edge by done.
Qed.

Lemma clean_start_unlines ls :
  Forall declaration_line ls → clean_start (unlines ls).
Proof.
  induction 1 as [|s ls (l & Hl & ->) _ IH]; simpl.
  - apply clean_start_nil.
  - by apply clean_start_line.
Qed.

(** The declarations of a file of declaration lines are those of its
    lines, each taken alone. *)
Lemma decls_unlines ls :
  Forall declaration_line ls →
  node_decls (unlines ls) = ls ≫= (λ s, node_decls (s +:+ nl))
  ∧ edge_decls (unlines ls) = ls ≫= (λ s, edge_decls (s +:+ nl)).
Proof.
  induction 1 as [|s ls (l & Hl & ->) Hls [IHn IHe]]; [done|].
  pose proof (clean_start_unlines ls Hls) as Hclean.
  unfold decls in *. cbn [unlines foldr mbind list_bind].
  fold (unlines ls). rewrite <- IHn, <- IHe.
  rewrite finditer_node_line, finditer_edge_line by done.
  pose proof (finditer_node_line l EmptyString Hl clean_start_nil) as Hn.
  pose proof (finditer_edge_line l EmptyString Hl clean_start_nil) as He.
  rewrite (string_app_nil_r nl), app_nil_r in Hn, He.
  rewrite Hn, He, !map_app. done.
Qed.

(** ** The comparator's sets *)

Lemma fold_add_match l X :
  fold_left Dotdiff.add_match l X
  = X ∪ list_to_set (map (λ m, (group m 1, group m 2)) l).
Proof.
  revert X. induction l as [|m l IH]; intros X; simpl.
  - set_solver.
  - rewrite IH. unfold Dotdiff.add_match. set_solver.
Qed.

Lemma dotdiff_parse_run fs path content t :
  fs !! path = Some content →
  Dotdiff.parse_dot_file fs path t = (t ++ [Opened path], inr (graph_of content)).
Proof.
  intros H. unfold Dotdiff.parse_dot_file.
  rewrite (bind_inr _ _ _ _ _ (read_file_Some _ _ _ t H)).
  unfold mret, M_ret, graph_of, decls. rewrite !fold_add_match.
  do 3 f_equal; set_solver.
Qed.

Lemma dotdiff_compare_run fs file1 file2 content1 content2 t :
  fs !! file1 = Some content1 → fs !! file2 = Some content2 →
  Dotdiff.compare_dot_files fs file1 file2 t
  = (t ++ [Opened file1] ++ [Opened file2],
     inr (Dotdiff.compare (graph_of content1) (graph_of content2))).
Proof.
  intros H1 H2. unfold Dotdiff.compare_dot_files.
  rewrite (bind_inr _ _ _ _ _ (dotdiff_parse_run _ _ _ t H1)).
  rewrite (bind_inr _ _ _ _ _ (dotdiff_parse_run _ _ _ _ H2)).
  unfold mret, M_ret. by rewrite <- app_assoc.
Qed.

Lemma report_nil head fmt only d :
  Dotdiff.report head fmt only d = [] ↔ only = ∅ ∧ d = [].
Proof.
  unfold Dotdiff.report. destruct (decide (only = ∅)) as [->|Hne].
  - naive_solver.
  - split; [|naive_solver]. intros H. by destruct d.
Qed.

Lemma diff_lines_nil g1 g2 :
  Dotdiff.diff_lines g1 g2 = []
  ↔ Dotdiff.nodes g1 = Dotdiff.nodes g2 ∧ Dotdiff.edges g1 = Dotdiff.edges g2.
Proof.
  unfold Dotdiff.diff_lines. rewrite !report_nil.
  destruct g1 as [n1 e1], g2 as [n2 e2]; simpl.
  split.
  - intros (He2 & (He1 & (Hn2 & (Hn1 & _)))). split; apply set_eq; intros x.
    + assert (x ∉ n1 ∖ n2) by (rewrite Hn1; set_solver).
      assert (x ∉ n2 ∖ n1) by (rewrite Hn2; set_solver).
      destruct (decide (x ∈ n1)), (decide (x ∈ n2)); set_solver.
    + assert (x ∉ e1 ∖ e2) by (rewrite He1; set_solver).
      assert (x ∉ e2 ∖ e1) by (rewrite He2; set_solver).
      destruct (decide (x ∈ e1)), (decide (x ∈ e2)); set_solver.
  - intros [-> ->]. repeat split; set_solver.
Qed.

Lemma compare_verdict g1 g2 :
  (Dotdiff.compare g1 g2).1 = true
  ↔ Dotdiff.nodes g1 = Dotdiff.nodes g2 ∧ Dotdiff.edges g1 = Dotdiff.edges g2.
Proof.
  unfold Dotdiff.compare; simpl. rewrite bool_decide_eq_true, length_zero_iff_nil.
  apply diff_lines_nil.
Qed.

Lemma list_to_set_ext (l1 l2 : list (string * string)) :
  list_to_set (C := gset (string * string)) l1 = list_to_set l2
  ↔ ∀ x, x ∈ l1 ↔ x ∈ l2.
Proof.
  split.
  - intros H x. rewrite <- !(elem_of_list_to_set (C := gset (string * string))).
    by rewrite H.
  - intros H. apply set_eq. intros x. rewrite !elem_of_list_to_set. apply H.
Qed.

Lemma graph_of_ext content content' :
  (∀ n, n ∈ node_decls content ↔ n ∈ node_decls content') →
  (∀ e, e ∈ edge_decls content ↔ e ∈ edge_decls content') →
  graph_of content = graph_of content'.
Proof.
  intros Hn He. unfold graph_of. f_equal; by apply list_to_set_ext.
Qed.


(** ** The order of the report *)

Global Instance tuple_le_total : Total tuple_le.
Proof.
  intros [a b] [c d]. unfold tuple_le; simpl.
  destruct (decide (a = c)) as [->|Hne].
  - rewrite decide_True by done. apply (total String.le).
  - rewrite decide_False by congruence. apply (total String.le).
Qed.

Global Instance tuple_le_trans : Transitive tuple_le.
Proof.
  intros [a b] [c d] [e f]. unfold tuple_le; simpl.
  destruct (decide (a = c)) as [->|Hac], (decide (c = e)) as [->|Hce];
    try (rewrite decide_True by done); try (rewrite decide_False by done).
  - apply (transitivity (R := String.le)).
  - done.
  - intros H _. done.
  - intros H1 H2. destruct (decide (a = e)) as [->|Hae].
    + exfalso. apply Hac. by apply (anti_symm String.le).
    + by trans c.
Qed.

Global Instance tuple_le_antisym : AntiSymm (=) tuple_le.
Proof.
  intros [a b] [c d]. unfold tuple_le; simpl.
  destruct (decide (a = c)) as [->|Hac].
  - rewrite decide_True by done. intros H1 H2. f_equal. by apply (anti_symm String.le).
  - rewrite decide_False by congruence. intros H1 H2. exfalso. apply Hac.
    by apply (anti_symm String.le).
Qed.

(** The order is lexicographic: by the first component, then by the
    second. *)
Lemma tuple_le_lexicographic a b c d :
  tuple_le (a, b) (c, d) ↔ (a ≠ c ∧ String.le a c) ∨ (a = c ∧ String.le b d).
Proof.
  unfold tuple_le; simpl. destruct (decide (a = c)) as [->|Hne]; naive_solver.
Qed.


Lemma sorted_Permutation l : sorted l ≡ₚ l.
Proof. apply merge_sort_Permutation. Qed.



Lemma sorted_nil_iff l : sorted l = [] ↔ l = [].
Proof.
  split; [|by intros ->].
  intros H. apply Permutation_nil_r. rewrite <- H. symmetry. apply sorted_Permutation.
Qed.

Lemma report_block head fmt only d :
  Dotdiff.report head fmt only d = d ++ block head fmt (sorted (elements only)).
Proof.
  unfold Dotdiff.report, block. destruct (decide (only = ∅)) as [->|Hne].
  - rewrite elements_empty. by rewrite app_nil_r.
  - destruct (sorted (elements only)) eqn:Hs; [|done].
    apply sorted_nil_iff, elements_empty_inv in Hs.
    exfalso. apply Hne. by apply leibniz_equiv.
Qed.

(** ** The command line of the comparator *)


(** ** The extraction loops of dot2interactive.py *)

Section node_loop.

Import Dot2interactive.

Lemma node_loop_inv ms : node_inv ms (fold_left node_step ms ([], ∅, ∅)).
Proof.
  induction ms as [|m ms IH] using rev_ind.
  - split; simpl.
    + constructor.
    + set_solver.
    + set_solver.
    + intros n Hn. by apply elem_of_nil in Hn.
    + intros pre m post H. by destruct pre.
    + intros i. rewrite lookup_empty. by rewrite decide_False by set_solver.
  - rewrite fold_left_app. simpl.
    destruct (fold_left node_step ms ([], ∅, ∅)) as [[nodes node_set] calls_map].
    destruct IH as [Hnd Hset Hids Hnode Hfirst Hcalls]; simpl in *.
    unfold node_step.
    destruct (decide (Re.group m 1 ∈ node_set)) as [Hin|Hnin].
    + split; simpl; try done.
      * intros i. rewrite map_app, elem_of_app, <- Hids. simpl.
        rewrite list_elem_of_singleton. split; [auto|].
        intros [H| ->]; [done|]. by apply Hset.
      * intros n Hn. destruct (Hnode n Hn) as (H1 & H2 & H3).
        repeat split; try done. rewrite map_app, elem_of_app. by left.
      * intros pre m' post Heq Hfresh.
        destruct (decide (post = [])) as [->|Hpost].
        -- apply app_inj_tail in Heq as [-> ->].
           exfalso. apply Hfresh. apply Hids. by apply Hset.
        -- destruct (exists_last Hpost) as (post' & x & ->).
           rewrite app_comm_cons, app_assoc in Heq.
           apply app_inj_tail in Heq as [-> ->].
           by apply (Hfirst pre m' post').
    + assert (Hfresh : Re.group m 1 ∉ map id nodes) by (by rewrite <- Hset).
      split; simpl.
      * rewrite map_app. simpl. apply NoDup_app. split; [done|]. split.
        -- intros x Hx Hx'. apply list_elem_of_singleton in Hx' as ->. done.
        -- apply NoDup_singleton.
      * intros i. rewrite map_app, elem_of_app, elem_of_union, Hset. simpl.
        by rewrite list_elem_of_singleton, elem_of_singleton.
      * intros i. rewrite !map_app, !elem_of_app, Hids. simpl.
        by rewrite !list_elem_of_singleton.
      * intros n Hn. rewrite map_app, elem_of_app.
        apply elem_of_app in Hn as [Hn|Hn].
        -- destruct (Hnode n Hn) as (H1 & H2 & H3). auto.
        -- apply list_elem_of_singleton in Hn as ->. simpl.
           repeat split. right. by apply list_elem_of_singleton.
      * intros pre m' post Heq Hfresh'. apply elem_of_app.
        destruct (decide (post = [])) as [->|Hpost].
        -- apply app_inj_tail in Heq as [-> ->].
           right. by apply list_elem_of_singleton.
        -- destruct (exists_last Hpost) as (post' & x & ->).
           rewrite app_comm_cons, app_assoc in Heq.
           apply app_inj_tail in Heq as [-> ->].
           left. by apply (Hfirst pre m' post').
      * intros i. rewrite lookup_insert. rewrite Hcalls.
        destruct (decide (Re.group m 1 = i)) as [<-|Hne].
        -- by rewrite decide_True by set_solver.
        -- destruct (decide (i ∈ node_set)).
           ++ by rewrite decide_True by set_solver.
           ++ by rewrite decide_False by set_solver.
Qed.

Lemma edge_loop_inv cm0 ms : edge_inv cm0 ms (fold_left edge_step ms ([], cm0)).
Proof.
  induction ms as [|m ms IH] using rev_ind.
  - split; simpl; [done|done|].
    intros i s0 H. exists s0. split; [done|]. set_solver.
  - rewrite fold_left_app. simpl.
    destruct (fold_left edge_step ms ([], cm0)) as [edges calls_map].
    destruct IH as [Hedges Hnone Hsome]; simpl in *.
    unfold edge_step. split; simpl.
    + rewrite Hedges, !map_app. done.
    + intros i Hi. specialize (Hnone i Hi).
      destruct (calls_map !! Re.group m 1) as [callees|] eqn:Hsrc; [|done].
      rewrite lookup_insert_ne; [done|]. intros <-. congruence.
    + intros i s0 Hi. destruct (Hsome i s0 Hi) as (s & Hs & Hmem).
      destruct (decide (Re.group m 1 = i)) as [<-|Hne].
      * rewrite Hs. exists (s ∪ {[ Re.group m 2 ]}).
        rewrite lookup_insert_eq. split; [done|].
        intros t. rewrite elem_of_union, Hmem, map_app, elem_of_app. simpl.
        rewrite elem_of_singleton, list_elem_of_singleton. naive_solver.
      * exists s. split.
        -- destruct (calls_map !! Re.group m 1); [|done].
           by rewrite lookup_insert_ne.
        -- intros t. rewrite Hmem, map_app, elem_of_app. simpl.
           rewrite list_elem_of_singleton. naive_solver.
Qed.

Lemma dot2interactive_parse_run fs filename content t :
  fs !! filename = Some content →
  ∃ nodes node_set calls_map0 edges calls_map,
    fold_left node_step (finditer node_pattern content) ([], ∅, ∅)
    = (nodes, node_set, calls_map0)
    ∧ fold_left edge_step (finditer edge_pattern content) ([], calls_map0)
      = (edges, calls_map)
    ∧ parse_dot_file fs filename t
      = (t ++ [Opened filename], inr (nodes, edges, calls_map)).
Proof.
  intros H. unfold parse_dot_file.
  rewrite (bind_inr _ _ _ _ _ (read_file_Some _ _ _ t H)).
  destruct (fold_left node_step _ _) as [[nodes node_set] calls_map0] eqn:H1.
  destruct (fold_left edge_step _ _) as [edges calls_map] eqn:H2.
  by exists nodes, node_set, calls_map0, edges, calls_map.
Qed.

End node_loop.

Lemma filter_none {A} (P : A → Prop) `{∀ x, Decision (P x)} (l : list A) :
  (∀ y, y ∈ l → ¬ P y) → filter P l = [].
Proof.
  induction l as [|x l IH]; intros Hl; [done|].
  rewrite filter_cons_False by (apply Hl; left).
  apply IH. intros y Hy. apply Hl. by right.
Qed.

Lemma filter_unique_id (nodes : list Dot2interactive.node) n :
  NoDup (map Dot2interactive.id nodes) → n ∈ nodes →
  filter (λ x, Dot2interactive.id x = Dot2interactive.id n) nodes = [n].
Proof.
  induction nodes as [|x nodes IH]; intros Hnd Hin.
  - by apply elem_of_nil in Hin.
  - simpl in Hnd. apply NoDup_cons in Hnd as [Hx Hnd].
    assert (Hnone : ∀ y, y ∈ nodes → Dot2interactive.id y ≠ Dot2interactive.id x).
    { intros y Hy Heq. apply Hx. rewrite <- Heq. by apply list_elem_of_fmap_2. }
    apply elem_of_cons in Hin as [->|Hin].
    + rewrite filter_cons_True by done. f_equal.
      apply filter_none. intros y Hy. by apply Hnone.
    + rewrite filter_cons_False; [by apply IH|].
      intros Heq. by apply (Hnone n Hin).
Qed.

(** ** The properties of the specification *)

(** C1: the comparator answers "equal" exactly when the two texts declare
    the same set of (id, label) nodes and the same set of (from, to) edges;
    two other texts that declare the same nodes and edges, in any order and
    any number of times, get the same verdict and the same summary. *)
Theorem compare_equal_iff_same_sets fs file1 file2 content1 content2 :
  fs !! file1 = Some content1 → fs !! file2 = Some content2 →
  ∃ t is_equal summary,
    run (Dotdiff.compare_dot_files fs file1 file2) = (t, inr (is_equal, summary))
    ∧ (is_equal = true ↔
         (∀ n, n ∈ node_decls content1 ↔ n ∈ node_decls content2)
         ∧ (∀ e, e ∈ edge_decls content1 ↔ e ∈ edge_decls content2))
    ∧ ∀ fs' file1' file2' content1' content2',
        fs' !! file1' = Some content1' → fs' !! file2' = Some content2' →
        (∀ n, n ∈ node_decls content1 ↔ n ∈ node_decls content1') →
        (∀ e, e ∈ edge_decls content1 ↔ e ∈ edge_decls content1') →
        (∀ n, n ∈ node_decls content2 ↔ n ∈ node_decls content2') →
        (∀ e, e ∈ edge_decls content2 ↔ e ∈ edge_decls content2') →
        ∃ t', run (Dotdiff.compare_dot_files fs' file1' file2')
              = (t', inr (is_equal, summary)).
Proof.
  intros H1 H2.
  destruct (Dotdiff.compare (graph_of content1) (graph_of content2))
    as [is_equal summary] eqn:Hc.
  exists ([] ++ [Opened file1] ++ [Opened file2]), is_equal, summary.
  split; [|split].
  - unfold run. rewrite (dotdiff_compare_run _ _ _ _ _ _ H1 H2). by rewrite Hc.
  - pose proof (compare_verdict (graph_of content1) (graph_of content2)) as Hv.
    rewrite Hc in Hv; simpl in Hv. rewrite Hv. unfold graph_of; simpl.
    by rewrite !list_to_set_ext.
  - intros fs' file1' file2' content1' content2' H1' H2' Hn1 He1 Hn2 He2.
    eexists. unfold run. rewrite (dotdiff_compare_run _ _ _ _ _ _ H1' H2').
    rewrite <- (graph_of_ext _ _ Hn1 He1), <- (graph_of_ext _ _ Hn2 He2).
    by rewrite Hc.
Qed.

Lemma compare_equal_iff_same_sets_witness :
  ∃ t summary,
    run (Dotdiff.compare_dot_files example_fs "ref.dot" "gen.dot")
    = (t, inr (true, summary)).
Proof.
  destruct (compare_equal_iff_same_sets example_fs "ref.dot" "gen.dot" _ _
              eq_refl eq_refl) as (t & is_equal & summary & Hrun & Hiff & _).
  exists t, summary. rewrite Hrun.
  assert (run (Dotdiff.compare_dot_files example_fs "ref.dot" "gen.dot")
          = ([Opened "ref.dot"; Opened "gen.dot"],
             inr (true, "Graphs are structurally identical"))) as Hval
    by (vm_compute; reflexivity).
  rewrite Hrun in Hval. by simplify_eq.
Defined.

(** C2 (as amended): in the extraction of dot2interactive.py, when a text
    declares the node id [i] first with the label [l1] and again with [l2],
    the node list holds exactly one node with the id [i], and it carries
    the label [l1] of the first declaration. *)
Theorem first_declaration_wins fs filename content i l1 l2 pre mid post :
  fs !! filename = Some content →
  node_decls content = pre ++ (i, l1) :: mid ++ (i, l2) :: post →
  i ∉ pre.*1 →
  ∃ t nodes edges calls_map,
    run (Dot2interactive.parse_dot_file fs filename)
    = (t, inr (nodes, edges, calls_map))
    ∧ filter (λ n, Dot2interactive.id n = i) nodes
      = [ {| Dot2interactive.id := i; Dot2interactive.label := l1;
             Dot2interactive.group := Dot2interactive.categorize i;
             Dot2interactive.title := l1 +:+ Dot2interactive.hint |} ].
Proof.
  intros Hfile Hdecls Hfresh.
  destruct (dot2interactive_parse_run fs filename content [] Hfile)
    as (nodes & node_set & cm0 & edges & cm & Hn & He & Hrun).
  exists ([] ++ [Opened filename]), nodes, edges, cm. split; [exact Hrun|].
  pose proof (node_loop_inv (finditer node_pattern content)) as Hinv.
  rewrite Hn in Hinv. destruct Hinv as [Hnd _ _ _ Hfirst _]; simpl in *.
  unfold decls in Hdecls.
  apply map_eq_app in Hdecls as (mpre & mrest & Hms & Hpre & Hrest).
  apply map_eq_cons in Hrest as (m & mpost & -> & Hm & _).
  injection Hm as Hi Hl.
  specialize (Hfirst mpre m mpost Hms). rewrite Hi, Hl in Hfirst.
  set (n := {| Dot2interactive.id := i |}) in *.
  apply (filter_unique_id nodes n Hnd). apply Hfirst.
  intros Hin. apply Hfresh. rewrite <- Hpre.
  rewrite <- list_fmap_compose. exact Hin.
Qed.

Lemma first_declaration_wins_witness :
  ∃ t nodes edges calls_map,
    run (Dot2interactive.parse_dot_file twice_fs "twice.dot")
    = (t, inr (nodes, edges, calls_map))
    ∧ filter (λ n, Dot2interactive.id n = "a") nodes
      = [ {| Dot2interactive.id := "a"; Dot2interactive.label := "x";
             Dot2interactive.group := Dot2interactive.categorize "a";
             Dot2interactive.title := "x" +:+ Dot2interactive.hint |} ].
Proof.
  apply (first_declaration_wins twice_fs "twice.dot" twice_content
           "a" "x" "y" [] [] []).
  - reflexivity.
  - reflexivity.
  - simpl. apply not_elem_of_nil.
Defined.

(** The extraction of tests/dotdiff.py does not have this property: of an
    id declared with two labels it keeps both pairs. *)
Lemma dotdiff_keeps_both_labels :
  ¬ (∀ fs file content i l1 l2 pre mid post t g,
       fs !! file = Some content →
       node_decls content = pre ++ (i, l1) :: mid ++ (i, l2) :: post →
       l1 ≠ l2 → i ∉ pre.*1 →
       run (Dotdiff.parse_dot_file fs file) = (t, inr g) →
       ∀ l, (i, l) ∈ Dotdiff.nodes g → l = l1).
Proof.
  intros H.
  specialize (H twice_fs "twice.dot" twice_content "a" "x" "y" [] [] []
                [Opened "twice.dot"] (graph_of twice_content) eq_refl eq_refl).
  assert ("y" = "x") as Habs; [|discriminate Habs].
  apply H.
  - discriminate.
  - simpl. apply not_elem_of_nil.
  - unfold run. apply (dotdiff_parse_run twice_fs "twice.dot" _ [] eq_refl).
  - change (("a", "y") ∈ list_to_set (C := gset (string * string))
                             (node_decls twice_content)).
    apply elem_of_list_to_set.
    change (node_decls twice_content) with [("a", "x"); ("a", "y")]. set_solver.
Qed.

(** C3: the classifier is a function of the id alone with values 1 to 4,
    decided by the first rule that applies: the module prefix gives 1;
    otherwise the runtime prefix or one of the runtime primitives gives 2;
    otherwise one of the entry-point and math names gives 3; otherwise 4.
    In particular [__mod_init] is in category 1, [malloc] in 2, [main] in 3
    and [compute_sum] in 4. *)
Theorem categorize_rules :
  let is_module i := String.prefix "__mod_" i = true in
  let is_runtime i :=
    String.prefix "_gfortran_" i = true
    ∨ i ∈ ["malloc"; "free"; "memset"; "memmove"; "realloc"] in
  let is_entry i := i ∈ ["main"; "MAIN__"; "sqrt"; "lround"; "copysign"] in
  (∀ i, Dot2interactive.categorize i ∈ [1; 2; 3; 4])
  ∧ (∀ i, Dot2interactive.categorize i = 1 ↔ is_module i)
  ∧ (∀ i, Dot2interactive.categorize i = 2 ↔ ¬ is_module i ∧ is_runtime i)
  ∧ (∀ i, Dot2interactive.categorize i = 3 ↔
            ¬ is_module i ∧ ¬ is_runtime i ∧ is_entry i)
  ∧ (∀ i, Dot2interactive.categorize i = 4 ↔
            ¬ is_module i ∧ ¬ is_runtime i ∧ ¬ is_entry i)
  ∧ Dot2interactive.categorize "__mod_init" = 1
  ∧ Dot2interactive.categorize "malloc" = 2
  ∧ Dot2interactive.categorize "main" = 3
  ∧ Dot2interactive.categorize "compute_sum" = 4.
Proof.
  intros is_module is_runtime is_entry.
  assert (Hcases : ∀ i,
    (is_module i ∧ Dot2interactive.categorize i = 1)
    ∨ (¬ is_module i ∧ is_runtime i ∧ Dot2interactive.categorize i = 2)
    ∨ (¬ is_module i ∧ ¬ is_runtime i ∧ is_entry i
       ∧ Dot2interactive.categorize i = 3)
    ∨ (¬ is_module i ∧ ¬ is_runtime i ∧ ¬ is_entry i
       ∧ Dot2interactive.categorize i = 4)).
  { intros i. unfold Dot2interactive.categorize, is_module, is_runtime, is_entry.
    destruct (String.prefix "__mod_" i) eqn:Hm; [by left|right].
    destruct (String.prefix "_gfortran_" i) eqn:Hg; simpl.
    { left. split; [done|]. split; [by left|done]. }
    case_bool_decide as Hr.
    { left. split; [done|]. split; [by right|done]. }
    right. case_bool_decide as He.
    - left. repeat split; try done. by intros [?|?].
    - right. repeat split; try done. by intros [?|?]. }
  repeat apply conj; try reflexivity; intros i;
    destruct (Hcases i) as [[? Hc]|[(? & ? & Hc)|[(? & ? & ? & Hc)|(? & ? & ? & Hc)]]];
    rewrite Hc; first [set_solver | naive_solver].
Qed.





(** C6: comparing a graph with itself gives the verdict "equal", the
    one-line summary, no difference line and four empty set differences;
    so does comparing a file with itself. *)
Theorem compare_reflexive (g : Dotdiff.graph) :
  Dotdiff.compare g g = (true, "Graphs are structurally identical")
  ∧ Dotdiff.diff_lines g g = []
  ∧ Dotdiff.nodes g ∖ Dotdiff.nodes g = ∅
  ∧ Dotdiff.edges g ∖ Dotdiff.edges g = ∅
  ∧ ∀ fs file content, fs !! file = Some content →
      run (Dotdiff.compare_dot_files fs file file)
      = ([Opened file; Opened file],
         inr (true, "Graphs are structurally identical")).
Proof.
  assert (Hd : ∀ g, Dotdiff.diff_lines g g = []) by (intros g'; by apply diff_lines_nil).
  assert (Hc : ∀ g, Dotdiff.compare g g = (true, "Graphs are structurally identical")).
  { intros g'. unfold Dotdiff.compare. by rewrite Hd. }
  repeat split; [apply Hc|apply Hd|set_solver|set_solver|].
  intros fs file content H. unfold run.
  rewrite (dotdiff_compare_run _ _ _ _ _ _ H H). by rewrite Hc.
Qed.

Lemma compare_reflexive_witness :
  run (Dotdiff.compare_dot_files example_fs "gen.dot" "gen.dot")
  = ([Opened "gen.dot"; Opened "gen.dot"],
     inr (true, "Graphs are structurally identical")).
Proof.
  destruct (compare_reflexive (graph_of EmptyString)) as (_ & _ & _ & _ & H).
  apply (H example_fs "gen.dot" _ eq_refl).
Defined.

(** C7 (as amended): for a file in which every line holds one node or edge
    declaration between fillers, or no declaration, every permutation of
    its lines gives the same graph in canonical form. *)
Theorem line_order_independent fs path path' ls ls' :
  Forall declaration_line ls → ls ≡ₚ ls' →
  fs !! path = Some (unlines ls) → fs !! path' = Some (unlines ls') →
  ∃ t t' g,
    run (Dotdiff.parse_dot_file fs path) = (t, inr g)
    ∧ run (Dotdiff.parse_dot_file fs path') = (t', inr g).
Proof.
  intros Hls Hperm Hfile Hfile'.
  assert (Hls' : Forall declaration_line ls') by (by rewrite <- Hperm).
  exists ([] ++ [Opened path]), ([] ++ [Opened path']), (graph_of (unlines ls)).
  split; [by apply dotdiff_parse_run|].
  unfold run. rewrite (dotdiff_parse_run _ _ _ _ Hfile'). do 2 f_equal.
  destruct (decls_unlines ls Hls) as [Hn He].
  destruct (decls_unlines ls' Hls') as [Hn' He'].
  apply graph_of_ext; intros x.
  - rewrite Hn, Hn'. by rewrite Hperm.
  - rewrite He, He'. by rewrite Hperm.
Qed.

Lemma line_order_independent_witness :
  ∃ t t' g,
    run (Dotdiff.parse_dot_file
           {[ "a.dot" := unlines two_lines; "b.dot" := unlines (reverse two_lines) ]}
           "a.dot") = (t, inr g)
    ∧ run (Dotdiff.parse_dot_file
             {[ "a.dot" := unlines two_lines; "b.dot" := unlines (reverse two_lines) ]}
             "b.dot") = (t', inr g).
Proof.
  apply (line_order_independent _ "a.dot" "b.dot" two_lines (reverse two_lines)).
  - repeat constructor.
    + by exists (Decl "  " (EdgeDecl "main" "helper") ";").
    + by exists (Decl EmptyString (NodeDecl "main" "main") ";").
  - symmetry. apply reverse_Permutation.
  - reflexivity.
  - reflexivity.
Defined.

(** Without the condition on the lines the property fails: a declaration
    may run over two lines, and then the order of the lines decides
    whether it is found. *)
Lemma line_order_matters :
  ¬ (∀ fs path path' ls ls' t t' g g',
       ls ≡ₚ ls' →
       fs !! path = Some (unlines ls) → fs !! path' = Some (unlines ls') →
       run (Dotdiff.parse_dot_file fs path) = (t, inr g) →
       run (Dotdiff.parse_dot_file fs path') = (t', inr g') →
       g = g').
Proof.
  intros H.
  set (ls := [ q "a"; "[label=" +:+ q "b" +:+ "]" ]).
  set (fs := {[ "a.dot" := unlines ls; "b.dot" := unlines (reverse ls) ]}
             : gmap string string).
  specialize (H fs "a.dot" "b.dot" ls (reverse ls)
                [Opened "a.dot"] [Opened "b.dot"]
                (graph_of (unlines ls)) (graph_of (unlines (reverse ls)))).
  assert (Hin : ("a", "b") ∈ Dotdiff.nodes (graph_of (unlines ls))).
  { apply elem_of_list_to_set.
    change (node_decls (unlines ls)) with [("a", "b")]. set_solver. }
  rewrite H in Hin.
  - apply elem_of_list_to_set in Hin.
    change (node_decls (unlines (reverse ls))) with (@nil (string * string)) in Hin.
    by apply elem_of_nil in Hin.
  - symmetry. apply reverse_Permutation.
  - reflexivity.
  - reflexivity.
  - apply (dotdiff_parse_run fs "a.dot" _ [] eq_refl).
  - apply (dotdiff_parse_run fs "b.dot" _ [] eq_refl).
Qed.

(** C8: on every text both extractions return normally; when neither
    pattern matches at any position of the text, the node and edge
    collections (and [calls_map]) are empty; and a leading fragment inside
    which no match starts is passed over: the text declares what the rest
    of it declares. *)
Theorem extraction_total fs path content :
  fs !! path = Some content →
  ∃ t1 g t2 nodes edges calls_map,
    run (Dotdiff.parse_dot_file fs path) = (t1, inr g)
    ∧ run (Dot2interactive.parse_dot_file fs path)
      = (t2, inr (nodes, edges, calls_map))
    ∧ ((∀ s, s ∈ tails content →
          match_here node_pattern s = None ∧ match_here edge_pattern s = None) →
       g = {| Dotdiff.nodes := ∅; Dotdiff.edges := ∅ |}
       ∧ nodes = [] ∧ edges = [] ∧ calls_map = ∅)
    ∧ ∀ junk rest, content = junk +:+ rest →
        (∀ j, j ∈ tails junk → j ≠ EmptyString →
           match_here node_pattern (j +:+ rest) = None
           ∧ match_here edge_pattern (j +:+ rest) = None) →
        node_decls content = node_decls rest
        ∧ edge_decls content = edge_decls rest.
Proof.
  intros Hfile.
  destruct (dot2interactive_parse_run fs path content [] Hfile)
    as (nodes & node_set & cm0 & edges & cm & Hn & He & Hrun).
  exists ([] ++ [Opened path]), (graph_of content),
    ([] ++ [Opened path]), nodes, edges, cm.
  split; [by apply dotdiff_parse_run|]. split; [exact Hrun|]. split.
  - intros Hnone.
    assert (finditer node_pattern content = []) as Hnm
      by (apply finditer_no_match; intros t Ht; by apply Hnone).
    assert (finditer edge_pattern content = []) as Hem
      by (apply finditer_no_match; intros t Ht; by apply Hnone).
    rewrite Hnm in Hn. rewrite Hem in He. simpl in Hn, He. simplify_eq.
    unfold graph_of, decls. by rewrite Hnm, Hem.
  - intros junk rest -> Hjunk. unfold decls.
    rewrite !finditer_skip; [done| |]; intros j Hj Hne; by apply Hjunk.
Qed.

Lemma extraction_total_witness :
  ∃ t1 t2,
    run (Dotdiff.parse_dot_file noise_fs "noise.dot")
    = (t1, inr {| Dotdiff.nodes := ∅; Dotdiff.edges := ∅ |})
    ∧ run (Dot2interactive.parse_dot_file noise_fs "noise.dot")
      = (t2, inr ([], [], ∅)).
Proof.
  destruct (extraction_total noise_fs "noise.dot" _ eq_refl)
    as (t1 & g & t2 & nodes & edges & cm & H1 & H2 & Hempty & _).
  exists t1, t2. rewrite H1, H2.
  destruct Hempty as (-> & -> & -> & ->); [|done].
  intros s Hs. simpl in Hs.
  repeat (apply elem_of_cons in Hs as [->|Hs]; [by vm_compute|]).
  by apply elem_of_nil in Hs.
Defined.

(** C9: the node list of the renderable model has no two nodes with the
    same id; its ids are exactly the ids the text declares; each node
    carries the id and label of a declaration of the text, the category of
    its id and the tooltip made of its label followed by the fixed hint;
    the edge list is the list of the declared edges in textual order, each
    with the arrow marker [to]. *)
Theorem renderable_model fs filename content :
  fs !! filename = Some content →
  ∃ t nodes edges calls_map,
    run (Dot2interactive.parse_dot_file fs filename)
    = (t, inr (nodes, edges, calls_map))
    ∧ NoDup (map Dot2interactive.id nodes)
    ∧ (∀ i, i ∈ map Dot2interactive.id nodes ↔ i ∈ (node_decls content).*1)
    ∧ (∀ n, n ∈ nodes →
         (Dot2interactive.id n, Dot2interactive.label n) ∈ node_decls content
         ∧ Dot2interactive.group n = Dot2interactive.categorize (Dot2interactive.id n)
         ∧ Dot2interactive.title n
           = Dot2interactive.label n +:+ nl
             +:+ "Double-click to collapse/expand children")
    ∧ edges = map (λ d, {| Dot2interactive.from := d.1; Dot2interactive.to := d.2;
                           Dot2interactive.arrows := "to" |})
                  (edge_decls content).
Proof.
  intros Hfile.
  destruct (dot2interactive_parse_run fs filename content [] Hfile)
    as (nodes & node_set & cm0 & edges & cm & Hn & He & Hrun).
  exists ([] ++ [Opened filename]), nodes, edges, cm. split; [exact Hrun|].
  pose proof (node_loop_inv (finditer node_pattern content)) as Hinv.
  rewrite Hn in Hinv. destruct Hinv as [Hnd _ Hids Hnode _ _]; simpl in *.
  pose proof (edge_loop_inv cm0 (finditer edge_pattern content)) as Hinv.
  rewrite He in Hinv. destruct Hinv as [Hedges _ _]; simpl in *.
  repeat apply conj; try done.
  intros i. rewrite Hids. unfold decls. by rewrite <- list_fmap_compose.
Qed.

Lemma renderable_model_witness :
  ∃ t nodes edges calls_map,
    run (Dot2interactive.parse_dot_file example_fs "gen.dot")
    = (t, inr (nodes, edges, calls_map))
    ∧ length nodes = 2%nat ∧ length edges = 2%nat.
Proof.
  destruct (renderable_model example_fs "gen.dot" _ eq_refl)
    as (t & nodes & edges & cm & Hrun & _).
  exists t, nodes, edges, cm. split; [exact Hrun|].
  assert (∃ t' nodes' edges' cm',
            run (Dot2interactive.parse_dot_file example_fs "gen.dot")
            = (t', inr (nodes', edges', cm'))
            ∧ length nodes' = 2%nat ∧ length edges' = 2%nat)
    as (t' & nodes' & edges' & cm' & Hrun' & Hlen).
  { vm_compute. do 4 eexists. split; [reflexivity|]. split; reflexivity. }
  rewrite Hrun in Hrun'. by simplify_eq.
Defined.

(** C10: the keys of [calls_map] are the ids of the node list, that is the
    ids the text declares; the set kept for a declared id holds exactly
    the targets of the edges that leave it; every declared edge is in the
    edge list, and an edge whose source is not a declared node has no
    entry in [calls_map]. *)
Theorem calls_map_invariant fs filename content :
  fs !! filename = Some content →
  ∃ t nodes edges calls_map,
    run (Dot2interactive.parse_dot_file fs filename)
    = (t, inr (nodes, edges, calls_map))
    ∧ (∀ i, i ∈ dom calls_map ↔ i ∈ map Dot2interactive.id nodes)
    ∧ (∀ i, i ∈ dom calls_map ↔ i ∈ (node_decls content).*1)
    ∧ (∀ i, i ∈ map Dot2interactive.id nodes →
         ∃ callees, calls_map !! i = Some callees
           ∧ ∀ target, target ∈ callees ↔
               {| Dot2interactive.from := i; Dot2interactive.to := target;
                  Dot2interactive.arrows := "to" |} ∈ edges)
    ∧ (∀ source target, (source, target) ∈ edge_decls content →
         {| Dot2interactive.from := source; Dot2interactive.to := target;
            Dot2interactive.arrows := "to" |} ∈ edges)
    ∧ (∀ e, e ∈ edges →
         Dot2interactive.from e ∉ map Dot2interactive.id nodes →
         calls_map !! Dot2interactive.from e = None).
Proof.
  intros Hfile.
  destruct (dot2interactive_parse_run fs filename content [] Hfile)
    as (nodes & node_set & cm0 & edges & cm & Hn & He & Hrun).
  exists ([] ++ [Opened filename]), nodes, edges, cm. split; [exact Hrun|].
  pose proof (node_loop_inv (finditer node_pattern content)) as Hinv.
  rewrite Hn in Hinv. destruct Hinv as [_ Hset Hids _ _ Hcalls]; simpl in *.
  pose proof (edge_loop_inv cm0 (finditer edge_pattern content)) as Hinv.
  rewrite He in Hinv. destruct Hinv as [Hedges Hnone Hsome]; simpl in *.
  assert (Hmem : ∀ s t,
    {| Dot2interactive.from := s; Dot2interactive.to := t;
       Dot2interactive.arrows := "to" |} ∈ edges ↔ (s, t) ∈ edge_decls content).
  { intros s t. rewrite Hedges. unfold decls. split.
    - intros H. apply list_elem_of_fmap in H as ([s' t'] & Heq & Hin).
      simpl in Heq. by simplify_eq.
    - intros H. apply list_elem_of_fmap. by exists (s, t). }
  assert (Hdom : ∀ i, i ∈ dom cm ↔ i ∈ map Dot2interactive.id nodes).
  { intros i. rewrite elem_of_dom, <- Hset. specialize (Hcalls i).
    destruct (decide (i ∈ node_set)) as [Hin|Hnin].
    - destruct (Hsome i ∅ Hcalls) as (s & -> & _). split; [done|]. by eexists.
    - rewrite (Hnone i Hcalls). split; [by intros [? ?]|done]. }
  repeat apply conj.
  - exact Hdom.
  - intros i. rewrite Hdom, Hids. unfold decls. by rewrite <- list_fmap_compose.
  - intros i Hi. apply Hset in Hi. specialize (Hcalls i).
    rewrite decide_True in Hcalls by done.
    destruct (Hsome i ∅ Hcalls) as (s & Hs & Hts). exists s. split; [done|].
    intros target. rewrite Hts, Hmem. set_solver.
  - intros s t. apply Hmem.
  - intros e He' Hfresh. apply Hnone. specialize (Hcalls (Dot2interactive.from e)).
    rewrite decide_False in Hcalls; [done|]. by rewrite Hset.
Qed.

Lemma calls_map_invariant_witness :
  ∃ t nodes edges calls_map,
    run (Dot2interactive.parse_dot_file example_fs "other.dot")
    = (t, inr (nodes, edges, calls_map))
    ∧ calls_map !! "foo" = Some {[ "baz" ]} ∧ calls_map !! "baz" = None.
Proof.
  destruct (calls_map_invariant example_fs "other.dot" _ eq_refl)
    as (t & nodes & edges & cm & Hrun & _).
  exists t, nodes, edges, cm. split; [exact Hrun|].
  assert (∃ t' nodes' edges' cm',
            run (Dot2interactive.parse_dot_file example_fs "other.dot")
            = (t', inr (nodes', edges', cm'))
            ∧ cm' !! "foo" = Some {[ "baz" ]} ∧ cm' !! "baz" = None)
    as (t' & nodes' & edges' & cm' & Hrun' & Hlen).
  { vm_compute. do 4 eexists. split; [reflexivity|]. split; reflexivity. }
  rewrite Hrun in Hrun'. by simplify_eq.
Defined.

(** ** Further properties: what the two patterns match *)

Lemma span_spec cs s :
  s = (span cs s).1 +:+ (span cs s).2
  ∧ all_chars (accepts cs) (span cs s).1 = true.
Proof.
  induction s as [|c s [IH1 IH2]]; [done|]. cbn [span].
  destruct (accepts cs c) eqn:Hc; [|done].
  destruct (span cs s) as [a r]; simpl in *. rewrite Hc. split; [|done].
  by rewrite string_app_cons, <- IH1.
Qed.

Lemma match_One_inv cs p s r :
  match_here (One cs :: p) s = Some r →
  ∃ c s', s = String c s' ∧ accepts cs c = true ∧ match_here p s' = Some r.
Proof.
  destruct s as [|c s']; [done|]. rewrite match_here_One.
  destruct (accepts cs c) eqn:Hc; [|done]. intros H. by exists c, s'.
Qed.

Lemma match_Chr_inv d p s r :
  match_here (One (Chr d) :: p) s = Some r →
  ∃ s', s = String d s' ∧ match_here p s' = Some r.
Proof.
  intros (c & s' & -> & Hc & H)%match_One_inv. cbn [accepts] in Hc.
  apply Ascii.eqb_eq in Hc as <-. by exists s'.
Qed.

Lemma match_literal_inv lit p s r :
  match_here (literal lit ++ p) s = Some r →
  ∃ s', s = lit +:+ s' ∧ match_here p s' = Some r.
Proof.
  revert s. induction lit as [|d lit IH]; intros s; cbn [literal app].
  - intros H. by exists s.
  - intros (s1 & -> & H)%match_Chr_inv. destruct (IH _ H) as (s' & -> & H').
    by exists s'.
Qed.

Lemma match_literal lit p s :
  match_here (literal lit ++ p) (lit +:+ s) = match_here p s.
Proof.
  induction lit as [|d lit IH]; [done|]. cbn [literal app].
  rewrite string_app_cons, match_here_One. cbn [accepts].
  by rewrite Ascii.eqb_refl.
Qed.

(** A repetition in front of a literal outside its class: it matches
    exactly a run of the class followed by the literal. *)
Lemma match_many_inv least capture cs d p s g rest :
  (∀ c, accepts cs c = true → accepts (Chr d) c = false) →
  match_here (Many least capture cs :: One (Chr d) :: p) s = Some (g, rest) →
  ∃ a s' g',
    s = a +:+ String d s' ∧ all_chars (accepts cs) a = true
    ∧ (least = true → a ≠ EmptyString)
    ∧ match_here p s' = Some (g', rest)
    ∧ g = if capture then a :: g' else g'.
Proof.
  intros Hex. rewrite match_here_many by done.
  destruct (span_spec cs s) as [Hs Ha].
  destruct (span cs s) as [a r]; cbn [fst snd] in *.
  destruct (least && bool_decide (a = EmptyString)) eqn:Hl; [done|].
  destruct (match_here (One (Chr d) :: p) r) as [[g' rest']|] eqn:Hm; [|done].
  intros H. simplify_eq.
  apply match_Chr_inv in Hm as (s' & -> & Hm).
  exists a, s', g'. repeat split; try done.
  intros -> ->. by rewrite bool_decide_eq_true_2 in Hl.
Qed.

Lemma match_many_intro least capture cs d p a s :
  (∀ c, accepts cs c = true → accepts (Chr d) c = false) →
  all_chars (accepts cs) a = true →
  (least = true → a ≠ EmptyString) →
  match_here (Many least capture cs :: One (Chr d) :: p) (a +:+ String d s)
  = match match_here p s with
    | Some (g, rest) => Some (if capture then a :: g else g, rest)
    | None => None
    end.
Proof.
  intros Hex Ha Hl. rewrite match_here_many by done.
  rewrite span_app; [|done|].
  2:{ destruct (accepts cs d) eqn:Hd; [|done].
      apply Hex in Hd. cbn [accepts] in Hd. by rewrite Ascii.eqb_refl in Hd. }
  cbn [fst snd]. rewrite match_here_One. cbn [accepts]. rewrite Ascii.eqb_refl.
  destruct least; cbn [andb]; [|done].
  by rewrite bool_decide_eq_false_2 by auto.
Qed.

Lemma not_quote_excl c :
  accepts (NotChr quote) c = true → accepts (Chr quote) c = false.
Proof. cbn [accepts]. by intros ->%negb_true_iff. Qed.

Lemma space_excl d c :
  is_space d = false → accepts Whitespace c = true → accepts (Chr d) c = false.
Proof.
  intros Hd Hc. cbn [accepts] in *. apply Ascii.eqb_neq. intros <-. congruence.
Qed.

(** X1: the node pattern matches at the head of a text exactly when the
    text reads: a quoted non-empty id without a quote, any white space,
    the literal [label=], a quoted non-empty label without a quote, and a
    closing bracket; the two groups are the id and the label, and the
    match ends after the bracket. *)
Theorem node_pattern_shape s g rest :
  match_here node_pattern s = Some (g, rest)
  ↔ ∃ i ws l,
      g = [i; l]
      ∧ s = q i +:+ ws +:+ "[label=" +:+ q l +:+ "]" +:+ rest
      ∧ i ≠ EmptyString ∧ all_chars not_quote i = true
      ∧ all_chars is_space ws = true
      ∧ l ≠ EmptyString ∧ all_chars not_quote l = true.
Proof.
  rewrite node_pattern_front. split.
  - intros (s1 & -> & H)%match_Chr_inv.
    apply match_many_inv in H as (i & s2 & g1 & -> & Hi & Hin & H & ->);
      [|apply not_quote_excl].
    apply match_many_inv in H as (ws & s3 & g2 & -> & Hws & _ & H & ->);
      [|intros ?; by apply space_excl].
    apply match_literal_inv in H as (s4 & -> & H).
    apply match_Chr_inv in H as (s5 & -> & H).
    apply match_many_inv in H as (l & s6 & g3 & -> & Hl & Hln & H & ->);
      [|apply not_quote_excl].
    apply match_Chr_inv in H as (s7 & -> & H). cbn [match_here] in H.
    simplify_eq. exists i, ws, l. unfold q. str_norm. repeat split; auto.
  - intros (i & ws & l & -> & -> & Hin & Hi & Hws & Hln & Hl).
    unfold q. str_norm. rewrite match_here_One. cbn [accepts].
    rewrite Ascii.eqb_refl.
    rewrite match_many_intro; [|apply not_quote_excl|done|done].
    rewrite match_many_intro; [|intros ?; by apply space_excl|done|done].
    change (String "l" (String "a" (String "b" (String "e" (String "l"
              (String "=" ?x)))))) with ("label=" +:+ x).
    rewrite match_literal. rewrite match_here_One. cbn [accepts].
    rewrite Ascii.eqb_refl.
    rewrite match_many_intro; [|apply not_quote_excl|done|done].
    rewrite match_here_One. cbn [accepts]. by rewrite Ascii.eqb_refl.
Qed.

(** X2: the edge pattern matches at the head of a text exactly when the
    text reads: a quoted non-empty source without a quote, any white
    space, the arrow, any white space, and a quoted non-empty target
    without a quote; the two groups are the source and the target, and
    the match ends after the closing quote. *)
Theorem edge_pattern_shape s g rest :
  match_here edge_pattern s = Some (g, rest)
  ↔ ∃ a ws1 ws2 b,
      g = [a; b]
      ∧ s = q a +:+ ws1 +:+ "->" +:+ ws2 +:+ q b +:+ rest
      ∧ a ≠ EmptyString ∧ all_chars not_quote a = true
      ∧ all_chars is_space ws1 = true ∧ all_chars is_space ws2 = true
      ∧ b ≠ EmptyString ∧ all_chars not_quote b = true.
Proof.
  rewrite edge_pattern_front. split.
  - intros (s1 & -> & H)%match_Chr_inv.
    apply match_many_inv in H as (a & s2 & g1 & -> & Ha & Han & H & ->);
      [|apply not_quote_excl].
    apply match_many_inv in H as (ws1 & s3 & g2 & -> & Hws1 & _ & H & ->);
      [|intros ?; by apply space_excl].
    apply match_Chr_inv in H as (s4 & -> & H).
    apply match_many_inv in H as (ws2 & s5 & g3 & -> & Hws2 & _ & H & ->);
      [|intros ?; by apply space_excl].
    apply match_many_inv in H as (b & s6 & g4 & -> & Hb & Hbn & H & ->);
      [|apply not_quote_excl].
    cbn [match_here] in H. simplify_eq.
    exists a, ws1, ws2, b. unfold q. str_norm. repeat split; auto.
  - intros (a & ws1 & ws2 & b & -> & -> & Han & Ha & Hws1 & Hws2 & Hbn & Hb).
    unfold q. str_norm. rewrite match_here_One. cbn [accepts].
    rewrite Ascii.eqb_refl.
    rewrite match_many_intro; [|apply not_quote_excl|done|done].
    rewrite match_many_intro; [|intros ?; by apply space_excl|done|done].
    rewrite match_here_One. cbn [accepts]. rewrite Ascii.eqb_refl.
    rewrite match_many_intro; [|intros ?; by apply space_excl|done|done].
    by rewrite match_many_intro; [|apply not_quote_excl|done|done].
Qed.

Lemma finditer_from_elem p skip s x :
  x ∈ finditer_from p skip s →
  ∃ pre t rest, s = pre +:+ t ∧ match_here p t = Some (x, rest).
Proof.
  revert skip. induction s as [|c s IH]; intros skip; cbn [finditer_from].
  - by intros ?%elem_of_nil.
  - assert (Hlater : ∀ k, x ∈ finditer_from p k s →
      ∃ pre t rest, String c s = pre +:+ t ∧ match_here p t = Some (x, rest)).
    { intros k (pre & t & rest & -> & Hm)%IH. by exists (String c pre), t, rest. }
    destruct skip as [|k]; [|apply Hlater].
    destruct (match_here p (String c s)) as [[g rest]|] eqn:Hm; [|apply Hlater].
    intros [->|Hin]%elem_of_cons; [|by eapply Hlater].
    by exists EmptyString, (String c s), rest.
Qed.

Lemma decls_elem p content x :
  x ∈ decls p content →
  ∃ pre t m rest,
    content = pre +:+ t ∧ match_here p t = Some (m, rest)
    ∧ x = (group m 1, group m 2).
Proof.
  unfold decls. intros (m & -> & Hm)%list_elem_of_fmap.
  apply finditer_from_elem in Hm as (pre & t & rest & -> & Hm).
  by exists pre, t, m, rest.
Qed.

(** X3: the extraction invents nothing.  Every node it reports is written
    in the text as a quoted id, white space, [label=], a quoted label and
    a closing bracket, and every edge as a quoted source, an arrow between
    white space and a quoted target; the names it reports are never empty
    and never hold a quote. *)
Theorem extracted_is_written content :
  (∀ i l, (i, l) ∈ node_decls content →
     ∃ pre ws post,
       content = pre +:+ q i +:+ ws +:+ "[label=" +:+ q l +:+ "]" +:+ post
       ∧ all_chars is_space ws = true
       ∧ i ≠ EmptyString ∧ all_chars not_quote i = true
       ∧ l ≠ EmptyString ∧ all_chars not_quote l = true)
  ∧ (∀ a b, (a, b) ∈ edge_decls content →
       ∃ pre ws1 ws2 post,
         content = pre +:+ q a +:+ ws1 +:+ "->" +:+ ws2 +:+ q b +:+ post
         ∧ all_chars is_space ws1 = true ∧ all_chars is_space ws2 = true
         ∧ a ≠ EmptyString ∧ all_chars not_quote a = true
         ∧ b ≠ EmptyString ∧ all_chars not_quote b = true).
Proof.
  split.
  - intros i l (pre & t & m & rest & -> & Hm & Hx)%decls_elem.
    apply node_pattern_shape in Hm as (i' & ws & l' & -> & -> & ? & ? & ? & ? & ?).
    cbn in Hx. simplify_eq. by exists pre, ws, rest.
  - intros a b (pre & t & m & rest & -> & Hm & Hx)%decls_elem.
    apply edge_pattern_shape
      in Hm as (a' & ws1 & ws2 & b' & -> & -> & ? & ? & ? & ? & ? & ?).
    cbn in Hx. simplify_eq. by exists pre, ws1, ws2, rest.
Qed.

Lemma extracted_is_written_witness :
  ∃ pre ws post,
    twice_content = pre +:+ q "a" +:+ ws +:+ "[label=" +:+ q "y" +:+ "]" +:+ post
    ∧ all_chars is_space ws = true.
Proof.
  destruct (extracted_is_written twice_content) as [H _].
  destruct (H "a" "y") as (pre & ws & post & Heq & Hws & _).
  - change (node_decls twice_content) with [("a", "x"); ("a", "y")]. set_solver.
  - by exists pre, ws, post.
Defined.

(** X4: on a file made of declaration lines the extraction finds
    exactly the declared nodes and exactly the declared edges, in the
    order of the lines and with their repetitions. *)
Theorem declaration_lines_recognised (ls : list line) :
  Forall (λ l, line_ok l = true) ls →
  node_decls (unlines (render_line <$> ls)) = ls ≫= declared_nodes
  ∧ edge_decls (unlines (render_line <$> ls)) = ls ≫= declared_edges.
Proof.
  induction 1 as [|l ls Hl Hls [IHn IHe]]; [done|].
  assert (Hclean : clean_start (unlines (render_line <$> ls))).
  { apply clean_start_unlines, Forall_fmap. eapply Forall_impl; [exact Hls|].
    intros l' Hl'. by exists l'. }
  unfold decls in *. cbn [fmap list_fmap unlines foldr mbind list_bind].
  fold (unlines (render_line <$> ls)). rewrite <- IHn, <- IHe.
  rewrite finditer_node_line, finditer_edge_line by done.
  rewrite !map_app. by destruct l as [lead [a b|a b] trail|text].
Qed.

Lemma declaration_lines_recognised_witness :
  node_decls (unlines (render_line <$> three_lines)) = [("main", "main")]
  ∧ edge_decls (unlines (render_line <$> three_lines)) = [("main", "helper")].
Proof.
  apply (declaration_lines_recognised three_lines).
  repeat constructor.
Defined.

(** ** Further properties: the comparator *)

(** X5: called with any number of arguments other than two, the
    comparator prints the usage line with the script name and exits with
    1 without opening a file. *)
Theorem main_usage fs prog args :
  length args ≠ 2%nat →
  run (Dotdiff.main fs (prog :: args))
  = ([Printed ("Usage: " +:+ prog +:+ " <reference.dot> <generated.dot>")],
     inl (SystemExit 1)).
Proof.
  intros Hlen. unfold run, Dotdiff.main. cbn [nth].
  rewrite bool_decide_eq_true_2 by (cbn [length]; lia). reflexivity.
Qed.

Lemma main_usage_witness :
  run (Dotdiff.main example_fs ["dotdiff.py"; "ref.dot"])
  = ([Printed "Usage: dotdiff.py <reference.dot> <generated.dot>"],
     inl (SystemExit 1)).
Proof. apply (main_usage example_fs "dotdiff.py" ["ref.dot"]). simpl. lia. Defined.

Lemma read_file_None fs path t :
  fs !! path = None → read_file fs path t = (t, inl (FileNotFoundError path)).
Proof. intros H. unfold read_file. by rewrite H. Qed.

Lemma dotdiff_parse_missing fs path t :
  fs !! path = None →
  Dotdiff.parse_dot_file fs path t = (t, inl (FileNotFoundError path)).
Proof.
  intros H. unfold Dotdiff.parse_dot_file.
  by rewrite (bind_inl _ _ _ _ _ (read_file_None _ _ t H)).
Qed.

(** X6: the extraction functions and [compare_dot_files] do not check
    that their files exist.  On a missing file each of them ends with
    [FileNotFoundError] for that file; [compare_dot_files] reads the
    reference first, so a missing second file is found only after the
    first was opened and parsed. *)
Theorem missing_file_raises fs file1 file2 :
  (fs !! file1 = None →
     run (Dotdiff.parse_dot_file fs file1) = ([], inl (FileNotFoundError file1))
     ∧ run (Dot2interactive.parse_dot_file fs file1)
       = ([], inl (FileNotFoundError file1))
     ∧ run (Dotdiff.compare_dot_files fs file1 file2)
       = ([], inl (FileNotFoundError file1)))
  ∧ (is_Some (fs !! file1) → fs !! file2 = None →
     run (Dotdiff.compare_dot_files fs file1 file2)
     = ([Opened file1], inl (FileNotFoundError file2))).
Proof.
  split.
  - intros H. repeat split.
    + by apply dotdiff_parse_missing.
    + unfold run, Dot2interactive.parse_dot_file.
      by rewrite (bind_inl _ _ _ _ _ (read_file_None _ _ [] H)).
    + unfold run, Dotdiff.compare_dot_files.
      by rewrite (bind_inl _ _ _ _ _ (dotdiff_parse_missing _ _ [] H)).
  - intros [c1 H1] H2. unfold run, Dotdiff.compare_dot_files.
    rewrite (bind_inr _ _ _ _ _ (dotdiff_parse_run _ _ _ [] H1)).
    by rewrite (bind_inl _ _ _ _ _ (dotdiff_parse_missing _ _ _ H2)).
Qed.

Lemma missing_file_raises_witness :
  run (Dotdiff.compare_dot_files example_fs "ref.dot" "missing.dot")
  = ([Opened "ref.dot"], inl (FileNotFoundError "missing.dot")).
Proof.
  destruct (missing_file_raises example_fs "ref.dot" "missing.dot") as [_ H].
  apply H; [by eexists|reflexivity].
Defined.

Lemma diff_lines_blocks g1 g2 :
  Dotdiff.diff_lines g1 g2
  = block "Nodes only in reference file:" Dotdiff.node_minus
      (sorted (elements (Dotdiff.nodes g1 ∖ Dotdiff.nodes g2)))
    ++ block "Nodes only in generated file:" Dotdiff.node_plus
         (sorted (elements (Dotdiff.nodes g2 ∖ Dotdiff.nodes g1)))
    ++ block "Edges only in reference file:" Dotdiff.edge_minus
         (sorted (elements (Dotdiff.edges g1 ∖ Dotdiff.edges g2)))
    ++ block "Edges only in generated file:" Dotdiff.edge_plus
         (sorted (elements (Dotdiff.edges g2 ∖ Dotdiff.edges g1))).
Proof.
  unfold Dotdiff.diff_lines. rewrite !report_block. simpl.
  by rewrite <- !app_assoc.
Qed.

Lemma block_elem (head : string) (fmt : string * string → string)
    (X : gset (string * string)) (x : string * string) :
  x ∈ X → fmt x ∈ block head fmt (sorted (elements X)).
Proof.
  intros Hx.
  assert (x ∈ sorted (elements X)) as Hin
    by (rewrite sorted_Permutation; by apply elem_of_elements).
  unfold block. destruct (sorted (elements X)) as [|y l] eqn:E.
  - by apply elem_of_nil in Hin.
  - right. by apply list_elem_of_fmap_2.
Qed.

Lemma block_length (head : string) (fmt : string * string → string)
    (X : gset (string * string)) :
  length (block head fmt (sorted (elements X)))
  = if decide (X = ∅) then 0%nat else S (size X).
Proof.
  assert (length (sorted (elements X)) = size X) as Hlen
    by (by rewrite sorted_Permutation).
  unfold block. destruct (decide (X = ∅)) as [->|Hne].
  - by rewrite elements_empty.
  - destruct (sorted (elements X)) as [|y l] eqn:E.
    + apply sorted_nil_iff, elements_empty_inv in E.
      exfalso. apply Hne. by apply leibniz_equiv.
    + cbn [length]. by rewrite length_map, <- Hlen.
Qed.

Lemma diff_lines_elem g1 g2 :
  (∀ x, x ∈ Dotdiff.nodes g1 → x ∉ Dotdiff.nodes g2 →
     Dotdiff.node_minus x ∈ Dotdiff.diff_lines g1 g2)
  ∧ (∀ x, x ∈ Dotdiff.nodes g2 → x ∉ Dotdiff.nodes g1 →
       Dotdiff.node_plus x ∈ Dotdiff.diff_lines g1 g2)
  ∧ (∀ x, x ∈ Dotdiff.edges g1 → x ∉ Dotdiff.edges g2 →
       Dotdiff.edge_minus x ∈ Dotdiff.diff_lines g1 g2)
  ∧ (∀ x, x ∈ Dotdiff.edges g2 → x ∉ Dotdiff.edges g1 →
       Dotdiff.edge_plus x ∈ Dotdiff.diff_lines g1 g2).
Proof.
  rewrite diff_lines_blocks. repeat split; intros x Hin Hnin;
    rewrite !elem_of_app.
  - left. apply block_elem. set_solver.
  - right; left. apply block_elem. set_solver.
  - right; right; left. apply block_elem. set_solver.
  - right; right; right. apply block_elem. set_solver.
Qed.

(** X7: every difference is reported: a node of the reference that the
    generated graph lacks has its [-] line among the difference lines, a
    node only in the generated graph its [+] line, and likewise for the
    edges. *)
Theorem differences_are_listed g1 g2 :
  (∀ x, x ∈ Dotdiff.nodes g1 → x ∉ Dotdiff.nodes g2 →
     "  - " +:+ x.1 +:+ " [label=" +:+ x.2 +:+ "]" ∈ Dotdiff.diff_lines g1 g2)
  ∧ (∀ x, x ∈ Dotdiff.nodes g2 → x ∉ Dotdiff.nodes g1 →
       "  + " +:+ x.1 +:+ " [label=" +:+ x.2 +:+ "]" ∈ Dotdiff.diff_lines g1 g2)
  ∧ (∀ x, x ∈ Dotdiff.edges g1 → x ∉ Dotdiff.edges g2 →
       "  - " +:+ x.1 +:+ " -> " +:+ x.2 ∈ Dotdiff.diff_lines g1 g2)
  ∧ (∀ x, x ∈ Dotdiff.edges g2 → x ∉ Dotdiff.edges g1 →
       "  + " +:+ x.1 +:+ " -> " +:+ x.2 ∈ Dotdiff.diff_lines g1 g2).
Proof. apply diff_lines_elem. Qed.

Lemma differences_are_listed_witness :
  "  - foo -> bar" ∈ Dotdiff.diff_lines (graph_of (example_fs !!! "ref.dot"))
                                        (graph_of (example_fs !!! "other.dot")).
Proof.
  destruct (differences_are_listed (graph_of (example_fs !!! "ref.dot"))
              (graph_of (example_fs !!! "other.dot"))) as (_ & _ & H & _).
  apply (H ("foo", "bar")).
  - apply elem_of_list_to_set.
    change (edge_decls _) with [("foo", "bar")]. set_solver.
  - intros Hin%elem_of_list_to_set.
    change (edge_decls _) with [("foo", "baz")] in Hin. set_solver.
Defined.

(** X8: the number of difference lines: each non-empty difference
    contributes its heading and one line for each of its members. *)
Theorem diff_lines_length g1 g2 :
  let lines (X : gset (string * string)) :=
    if decide (X = ∅) then 0%nat else S (size X) in
  length (Dotdiff.diff_lines g1 g2)
  = (lines (Dotdiff.nodes g1 ∖ Dotdiff.nodes g2)
     + lines (Dotdiff.nodes g2 ∖ Dotdiff.nodes g1)
     + lines (Dotdiff.edges g1 ∖ Dotdiff.edges g2)
     + lines (Dotdiff.edges g2 ∖ Dotdiff.edges g1))%nat.
Proof.
  intros lines. rewrite diff_lines_blocks, !length_app, !block_length.
  unfold lines. lia.
Qed.

Lemma compare_verdict_sym g1 g2 :
  (Dotdiff.compare g1 g2).1 = (Dotdiff.compare g2 g1).1
  ∧ length (Dotdiff.diff_lines g1 g2) = length (Dotdiff.diff_lines g2 g1).
Proof.
  assert (Hlen : length (Dotdiff.diff_lines g1 g2)
                 = length (Dotdiff.diff_lines g2 g1)).
  { rewrite !diff_lines_blocks, !length_app, !block_length. lia. }
  split; [|done]. unfold Dotdiff.compare; simpl. by rewrite Hlen.
Qed.

(** X9: the comparison is symmetric in its verdict: exchanging the
    reference and the generated file gives the same verdict and the same
    number of difference lines. *)
Theorem compare_symmetric fs file1 file2 content1 content2 :
  fs !! file1 = Some content1 → fs !! file2 = Some content2 →
  ∃ t t' is_equal summary summary',
    run (Dotdiff.compare_dot_files fs file1 file2) = (t, inr (is_equal, summary))
    ∧ run (Dotdiff.compare_dot_files fs file2 file1)
      = (t', inr (is_equal, summary'))
    ∧ length (Dotdiff.diff_lines (graph_of content1) (graph_of content2))
      = length (Dotdiff.diff_lines (graph_of content2) (graph_of content1)).
Proof.
  intros H1 H2.
  destruct (compare_verdict_sym (graph_of content1) (graph_of content2))
    as [Hv Hlen].
  exists ([] ++ [Opened file1] ++ [Opened file2]),
    ([] ++ [Opened file2] ++ [Opened file1]),
    (Dotdiff.compare (graph_of content1) (graph_of content2)).1,
    (Dotdiff.compare (graph_of content1) (graph_of content2)).2,
    (Dotdiff.compare (graph_of content2) (graph_of content1)).2.
  unfold run. rewrite !(dotdiff_compare_run _ _ _ _ _ _ H1 H2).
  rewrite !(dotdiff_compare_run _ _ _ _ _ _ H2 H1).
  split; [by destruct (Dotdiff.compare _ _)|]. split; [|done].
  rewrite Hv. by destruct (Dotdiff.compare _ _).
Qed.

Lemma compare_symmetric_witness :
  ∃ t t' is_equal summary summary',
    run (Dotdiff.compare_dot_files example_fs "ref.dot" "other.dot")
    = (t, inr (is_equal, summary))
    ∧ run (Dotdiff.compare_dot_files example_fs "other.dot" "ref.dot")
      = (t', inr (is_equal, summary')).
Proof.
  destruct (compare_symmetric example_fs "ref.dot" "other.dot" _ _
              eq_refl eq_refl) as (t & t' & b & s & s' & H1 & H2 & _).
  by exists t, t', b, s, s'.
Defined.

(** X11: the summary alone tells the verdict: it is the one-line
    "identical" message exactly when the verdict is "equal". *)
Theorem summary_tells_verdict g1 g2 :
  (Dotdiff.compare g1 g2).2 = "Graphs are structurally identical"
  ↔ (Dotdiff.compare g1 g2).1 = true.
Proof.
  unfold Dotdiff.compare; simpl.
  destruct (bool_decide (length (Dotdiff.diff_lines g1 g2) = 0%nat)); [done|].
  split; [|done]. unfold Dotdiff.counts.
  destruct (bool_decide (Dotdiff.diff_lines g1 g2 ≠ [])); str_norm; discriminate.
Qed.

(** X10: a label that differs counts twice.  When the two graphs give the
    same id two different labels, the verdict is "not equal" and the
    difference lines hold the node of the reference with [-] and the node
    of the generated graph with [+]. *)
Theorem label_change_is_two_entries g1 g2 i l1 l2 :
  l1 ≠ l2 →
  (i, l1) ∈ Dotdiff.nodes g1 → (∀ l, (i, l) ∈ Dotdiff.nodes g1 → l = l1) →
  (i, l2) ∈ Dotdiff.nodes g2 → (∀ l, (i, l) ∈ Dotdiff.nodes g2 → l = l2) →
  (Dotdiff.compare g1 g2).1 = false
  ∧ "  - " +:+ i +:+ " [label=" +:+ l1 +:+ "]" ∈ Dotdiff.diff_lines g1 g2
  ∧ "  + " +:+ i +:+ " [label=" +:+ l2 +:+ "]" ∈ Dotdiff.diff_lines g1 g2.
Proof.
  intros Hne H1 Hu1 H2 Hu2.
  assert (Hn1 : (i, l1) ∉ Dotdiff.nodes g2) by (intros ?%Hu2; done).
  assert (Hn2 : (i, l2) ∉ Dotdiff.nodes g1) by (intros ?%Hu1; done).
  destruct (diff_lines_elem g1 g2) as (Hm & Hp & _).
  split; [|split; [by apply (Hm (i, l1))|by apply (Hp (i, l2))]].
  apply not_true_is_false. intros [Hn _]%compare_verdict.
  apply Hn1. by rewrite <- Hn.
Qed.

Lemma label_change_is_two_entries_witness :
  (Dotdiff.compare {| Dotdiff.nodes := {[ ("f", "f") ]}; Dotdiff.edges := ∅ |}
                   {| Dotdiff.nodes := {[ ("f", "f.0") ]}; Dotdiff.edges := ∅ |}).1
  = false.
Proof.
  apply (label_change_is_two_entries _ _ "f" "f" "f.0").
  - discriminate.
  - cbn. set_solver.
  - cbn. intros l Hl. apply elem_of_singleton in Hl. congruence.
  - cbn. set_solver.
  - cbn. intros l Hl. apply elem_of_singleton in Hl. congruence.
Defined.

(** ** Further properties: the extraction of dot2interactive.py *)

Lemma node_loop_sublist ms :
  (λ n, (Dot2interactive.id n, Dot2interactive.label n))
    <$> (fold_left Dot2interactive.node_step ms ([], ∅, ∅)).1.1
  `sublist_of` (λ m, (group m 1, group m 2)) <$> ms.
Proof.
  induction ms as [|m ms IH] using rev_ind; [done|].
  rewrite fold_left_app. simpl.
  destruct (fold_left Dot2interactive.node_step ms ([], ∅, ∅))
    as [[nodes node_set] calls_map]. simpl in IH.
  unfold Dot2interactive.node_step. rewrite fmap_app.
  destruct (decide (group m 1 ∈ node_set)); simpl.
  - by apply sublist_inserts_r.
  - rewrite fmap_app. by apply sublist_app.
Qed.

(** X12: the node list follows the text: read as (id, label) pairs it is
    a subsequence of the node declarations in textual order; and
    [calls_map] has as many keys as the list has nodes. *)
Theorem nodes_in_textual_order fs filename content :
  fs !! filename = Some content →
  ∃ t nodes edges calls_map,
    run (Dot2interactive.parse_dot_file fs filename)
    = (t, inr (nodes, edges, calls_map))
    ∧ (λ n, (Dot2interactive.id n, Dot2interactive.label n)) <$> nodes
      `sublist_of` node_decls content
    ∧ size calls_map = length nodes.
Proof.
  intros Hfile.
  destruct (dot2interactive_parse_run fs filename content [] Hfile)
    as (nodes & node_set & cm0 & edges & cm & Hn & He & Hrun).
  exists ([] ++ [Opened filename]), nodes, edges, cm. split; [exact Hrun|].
  pose proof (node_loop_sublist (finditer node_pattern content)) as Hsub.
  rewrite Hn in Hsub. split; [exact Hsub|].
  pose proof (node_loop_inv (finditer node_pattern content)) as Hinv.
  rewrite Hn in Hinv. destruct Hinv as [Hnd Hset _ _ _ Hcalls]; simpl in *.
  pose proof (edge_loop_inv cm0 (finditer edge_pattern content)) as Hinv.
  rewrite He in Hinv. destruct Hinv as [_ Hnone Hsome]; simpl in *.
  assert (Hdom : dom cm = list_to_set (map Dot2interactive.id nodes)).
  { apply set_eq. intros i.
    rewrite elem_of_dom, elem_of_list_to_set, <- Hset. specialize (Hcalls i).
    destruct (decide (i ∈ node_set)) as [Hin|Hnin].
    - destruct (Hsome i ∅ Hcalls) as (s & -> & _). split; [done|]. by eexists.
    - rewrite (Hnone i Hcalls). split; [by intros [? ?]|done]. }
  rewrite <- size_dom, Hdom, size_list_to_set by done. apply length_map.
Qed.

Lemma nodes_in_textual_order_witness :
  ∃ t nodes edges calls_map,
    run (Dot2interactive.parse_dot_file twice_fs "twice.dot")
    = (t, inr (nodes, edges, calls_map))
    ∧ size calls_map = length nodes.
Proof.
  destruct (nodes_in_textual_order twice_fs "twice.dot" _ eq_refl)
    as (t & nodes & edges & cm & Hrun & _ & Hsize).
  by exists t, nodes, edges, cm.
Defined.

(** X13: the two extractions see the same graph.  On the same text the
    edge set of the comparator is the set of the edges of the edge list;
    every node of the node list is a node of the comparator, and every
    node of the comparator has its id in the node list; when no id is
    declared with two labels, the two node sets are equal. *)
Theorem extractors_agree fs path content :
  fs !! path = Some content →
  ∃ t t' g nodes edges calls_map,
    run (Dotdiff.parse_dot_file fs path) = (t, inr g)
    ∧ run (Dot2interactive.parse_dot_file fs path)
      = (t', inr (nodes, edges, calls_map))
    ∧ Dotdiff.edges g
      = list_to_set ((λ e, (Dot2interactive.from e, Dot2interactive.to e))
                       <$> edges)
    ∧ (∀ n, n ∈ nodes →
         (Dot2interactive.id n, Dot2interactive.label n) ∈ Dotdiff.nodes g)
    ∧ (∀ i l, (i, l) ∈ Dotdiff.nodes g → i ∈ Dot2interactive.id <$> nodes)
    ∧ ((∀ i l l', (i, l) ∈ Dotdiff.nodes g → (i, l') ∈ Dotdiff.nodes g → l = l') →
       Dotdiff.nodes g
       = list_to_set ((λ n, (Dot2interactive.id n, Dot2interactive.label n))
                        <$> nodes)).
Proof.
  intros Hfile.
  destruct (dot2interactive_parse_run fs path content [] Hfile)
    as (nodes & node_set & cm0 & edges & cm & Hn & He & Hrun).
  exists ([] ++ [Opened path]), ([] ++ [Opened path]), (graph_of content),
    nodes, edges, cm.
  split; [by apply dotdiff_parse_run|]. split; [exact Hrun|].
  pose proof (node_loop_inv (finditer node_pattern content)) as Hinv.
  rewrite Hn in Hinv. destruct Hinv as [_ _ Hids Hnode _ _]; simpl in *.
  pose proof (edge_loop_inv cm0 (finditer edge_pattern content)) as Hinv.
  rewrite He in Hinv. destruct Hinv as [Hedges _ _]; simpl in *.
  assert (Hin : ∀ n, n ∈ nodes →
    (Dot2interactive.id n, Dot2interactive.label n) ∈ node_decls content).
  { intros n Hn'. by destruct (Hnode n Hn') as [? _]. }
  assert (Hid : ∀ i l, (i, l) ∈ node_decls content →
    i ∈ Dot2interactive.id <$> nodes).
  { intros i l Hil. apply Hids. unfold decls in Hil.
    apply list_elem_of_fmap in Hil as (m & Heq & Hm). simplify_eq.
    by apply (list_elem_of_fmap_2 (λ m, group m 1)). }
  repeat apply conj.
  - rewrite Hedges. f_equal. unfold decls.
    generalize (map (λ m, (group m 1, group m 2)) (finditer edge_pattern content)).
    intros l. induction l as [|[a b] l IH]; [done|]. simpl. by f_equal.
  - intros n Hn'. apply elem_of_list_to_set. by apply Hin.
  - intros i l Hil%elem_of_list_to_set. by eapply Hid.
  - intros Huniq. apply set_eq. intros [i l].
    rewrite !elem_of_list_to_set. split.
    + intros Hil. pose proof (Hid i l Hil) as Hi.
      apply list_elem_of_fmap in Hi as (n & -> & Hn').
      apply list_elem_of_fmap. exists n. split; [|done]. f_equal.
      apply (Huniq (Dot2interactive.id n)); apply elem_of_list_to_set; auto.
    + intros (n & Heq & Hn')%list_elem_of_fmap. simplify_eq. by apply Hin.
Qed.

Lemma extractors_agree_witness :
  ∃ t t' g nodes edges calls_map,
    run (Dotdiff.parse_dot_file example_fs "gen.dot") = (t, inr g)
    ∧ run (Dot2interactive.parse_dot_file example_fs "gen.dot")
      = (t', inr (nodes, edges, calls_map))
    ∧ Dotdiff.edges g
      = list_to_set ((λ e, (Dot2interactive.from e, Dot2interactive.to e))
                       <$> edges).
Proof.
  destruct (extractors_agree example_fs "gen.dot" _ eq_refl)
    as (t & t' & g & nodes & edges & cm & H1 & H2 & H3 & _).
  by exists t, t', g, nodes, edges, cm.
Defined.

(** ** Further properties: the test driver *)

Section test_driver.

Import Test_gcc_compatibility.

Lemma split_on_cons sep c s :
  Ascii.eqb sep c = false →
  hd EmptyString (split_on sep (String c s))
  = String c (hd EmptyString (split_on sep s)).
Proof. intros H. cbn [split_on]. rewrite H. by destruct (split_on sep s). Qed.

Lemma split_on_hd sep pre tail :
  contains sep pre = false →
  hd EmptyString (split_on sep (pre +:+ String sep tail)) = pre.
Proof.
  induction pre as [|c pre IH]; intros H.
  - rewrite string_app_nil_l. cbn [split_on]. by rewrite Ascii.eqb_refl.
  - cbn [contains] in H. apply orb_false_iff in H as [Hc H].
    rewrite string_app_cons, split_on_cons by done. by rewrite IH.
Qed.



Lemma digits_value_decimal acc ds :
  all_chars is_decimal ds = true →
  digits_value acc true ds = Some (decimal acc ds).
Proof.
  revert acc. induction ds as [|c ds IH]; intros acc H; [done|].
  cbn [all_chars] in H. apply andb_true_iff in H as [Hc H].
  cbn [digits_value decimal]. rewrite Hc. by apply IH.
Qed.

Lemma digits_value_bad acc b s c :
  contains c s = true → is_decimal c = false → c ≠ "_"%char →
  digits_value acc b s = None.
Proof.
  intros Hin Hc Hu. revert acc b. induction s as [|d s IH]; intros acc b; [done|].
  cbn [contains] in Hin. cbn [digits_value].
  destruct (Ascii.eqb c d) eqn:Hcd.
  - apply Ascii.eqb_eq in Hcd as <-. rewrite Hc.
    by rewrite (proj2 (Ascii.eqb_neq "_" c)) by done.
  - simpl in Hin. destruct (is_decimal d); [by apply IH|].
    destruct (Ascii.eqb "_" d); [|done]. destruct b; [by apply IH|done].
Qed.

Lemma lstrip_no_space s : no_space s = true → lstrip s = s.
Proof.
  unfold lstrip. destruct s as [|c s]; [done|]. cbn. 
  intros [Hc _]%andb_true_iff. apply negb_true_iff in Hc. by rewrite Hc.
Qed.

Lemma rstrip_no_space s : no_space s = true → rstrip s = s.
Proof.
  induction s as [|c s IH]; [done|]. cbn.
  intros [Hc Hs]%andb_true_iff. apply negb_true_iff in Hc.
  rewrite (IH Hs), Hc. by destruct s.
Qed.

Lemma split_ws_tokens s :
  Forall (λ t, t ≠ EmptyString ∧ no_space t = true) (split_ws s).
Proof.
  induction s as [|c s IH]; [constructor|]. cbn [split_ws].
  destruct (is_space c) eqn:Hc; [done|].
  assert (Hone : String c EmptyString ≠ EmptyString
                 ∧ no_space (String c EmptyString) = true)
    by (split; [done|]; cbn; by rewrite Hc).
  destruct s as [|d s']; [constructor; [exact Hone|constructor]|].
  destruct (is_space d) eqn:Hd; [by constructor|].
  destruct (split_ws (String d s')) as [|x l];
    [constructor; [exact Hone|constructor]|].
  apply Forall_cons in IH as [[Hx Hxs] Hl]. constructor; [|done].
  split; [done|]. cbn. by rewrite Hc.
Qed.

Lemma no_space_app_l a b : no_space (a +:+ b) = true → no_space a = true.
Proof. unfold no_space. rewrite all_chars_app. by intros [? ?]%andb_true_iff. Qed.

Lemma first_version_skip skipped parts :
  Forall (λ p, looks_like_version p = false) skipped →
  first_version (skipped ++ parts) = first_version parts.
Proof.
  induction 1 as [|p skipped Hp _ IH]; [done|]. cbn [app first_version].
  unfold looks_like_version in Hp. by rewrite Hp.
Qed.

Lemma first_version_part part parts :
  looks_like_version part = true →
  first_version (part :: parts)
  = match py_int (hd EmptyString (split_on "." part)) with
    | Some n => inr (Some n)
    | None => inl ValueError
    end.
Proof.
  intros Hp. cbn [first_version]. unfold looks_like_version in Hp. by rewrite Hp.
Qed.

Lemma py_int_plain s c t :
  s = String c t → isdigit c = true → no_space s = true →
  py_int s = digits_value 0 false s.
Proof.
  intros -> Hc Hs. unfold py_int.
  rewrite lstrip_no_space, rstrip_no_space by done.
  destruct c as [[] [] [] [] [] [] [] []]; try done.
Qed.

Lemma contains_app c a b : contains c (a +:+ String c b) = true.
Proof.
  induction a as [|d a IH].
  - rewrite string_app_nil_l. cbn. by rewrite Ascii.eqb_refl.
  - rewrite string_app_cons. cbn [contains]. by rewrite IH, orb_true_r.
Qed.

End test_driver.

(** X14: [get_gcc_version] returns the major version.  When the first
    part of the first line that holds a dot and begins with a digit reads
    as decimal digits, a dot and anything, the result is the number the
    digits denote; the parts before it and the lines after the first are
    ignored.  The digits are at most 4300, the longest literal that every
    interpreter converts. *)
Theorem get_gcc_version_major stdout skipped ds tail later :
  split_ws_first_line stdout = skipped ++ (ds +:+ "." +:+ tail) :: later →
  Forall (λ p, looks_like_version p = false) skipped →
  ds ≠ EmptyString → all_chars Test_gcc_compatibility.is_decimal ds = true →
  (String.length ds ≤ 4300)%nat →
  Test_gcc_compatibility.get_gcc_version stdout = inr (Some (decimal 0 ds)).
Proof.
  intros Hparts Hskip Hne Hds _. unfold Test_gcc_compatibility.get_gcc_version.
  change ("." +:+ tail) with (String "."%char tail) in *.
  unfold split_ws_first_line in Hparts. rewrite Hparts.
  rewrite first_version_skip by done.
  assert (Hdot : Test_gcc_compatibility.contains "." ds = false).
  { clear -Hds. induction ds as [|c ds IH]; [done|]. cbn in *.
    apply andb_true_iff in Hds as [Hc Hds]. rewrite (IH Hds), orb_false_r.
    destruct (Ascii.eqb "." c) eqn:E; [|done].
    apply Ascii.eqb_eq in E as <-. done. }
  destruct ds as [|c ds']; [done|].
  cbn [all_chars] in Hds. apply andb_true_iff in Hds as [Hc Hds].
  rewrite first_version_part.
  2:{ unfold looks_like_version. apply andb_true_iff. split.
      - apply (contains_app "." (String c ds') tail).
      - rewrite string_app_cons.
        unfold Test_gcc_compatibility.isdigit. by rewrite Hc. }
  rewrite split_on_hd by done.
  assert (Hns : no_space (String c ds') = true).
  { eapply all_chars_impl; [|exact (proj2 (andb_true_iff _ _) (conj Hc Hds))].
    intros d Hd. destruct d as [[] [] [] [] [] [] [] []]; done. }
  rewrite (py_int_plain _ c ds'); [|done| |done].
  2:{ unfold Test_gcc_compatibility.isdigit. by rewrite Hc. }
  cbn [Test_gcc_compatibility.digits_value decimal]. rewrite Hc.
  by rewrite digits_value_decimal.
Qed.

Lemma get_gcc_version_major_witness :
  Test_gcc_compatibility.get_gcc_version
    ("gcc (Ubuntu 11.4.0-1ubuntu1~22.04) 11.4.0" +:+ nl +:+ "Copyright (C) 2021")
  = inr (Some 11).
Proof.
  apply (get_gcc_version_major _ ["gcc"; "(Ubuntu"] "11" "4.0-1ubuntu1~22.04)"
           ["11.4.0"]).
  - reflexivity.
  - repeat constructor.
  - discriminate.
  - reflexivity.
  - simpl. lia.
Defined.

(** X15: [get_gcc_version] returns [None] exactly when no part of the
    first line holds a dot and begins with a digit; so it does on an
    empty output. *)
Theorem get_gcc_version_none stdout :
  (Test_gcc_compatibility.get_gcc_version stdout = inr None
   ↔ Forall (λ p, looks_like_version p = false) (split_ws_first_line stdout))
  ∧ Test_gcc_compatibility.get_gcc_version EmptyString = inr None.
Proof.
  split; [|reflexivity]. unfold Test_gcc_compatibility.get_gcc_version.
  fold (split_ws_first_line stdout).
  induction (split_ws_first_line stdout) as [|p parts IH].
  - split; [constructor|done].
  - rewrite Forall_cons. destruct (looks_like_version p) eqn:Hp.
    + rewrite first_version_part by done.
      split; [|by intros [? _]].
      by destruct (Test_gcc_compatibility.py_int _).
    + change (p :: parts) with ([p] ++ parts).
      rewrite (first_version_skip [p] parts) by (by constructor).
      rewrite IH. naive_solver.
Qed.

(** X16: [get_gcc_version] does not catch the error of [int]: when the
    first part that holds a dot and begins with a digit has, before its
    first dot, a character that is neither a decimal digit nor an
    underscore, the call ends with [ValueError]. *)
Theorem get_gcc_version_value_error stdout skipped pre tail later c :
  split_ws_first_line stdout = skipped ++ (pre +:+ "." +:+ tail) :: later →
  Forall (λ p, looks_like_version p = false) skipped →
  looks_like_version (pre +:+ "." +:+ tail) = true →
  Test_gcc_compatibility.contains "." pre = false →
  Test_gcc_compatibility.contains c pre = true →
  Test_gcc_compatibility.is_decimal c = false → c ≠ "_"%char →
  Test_gcc_compatibility.get_gcc_version stdout
  = inl Test_gcc_compatibility.ValueError.
Proof.
  intros Hparts Hskip Hlooks Hdot Hin Hc Hu.
  change ("." +:+ tail) with (String "."%char tail) in *.
  unfold Test_gcc_compatibility.get_gcc_version.
  fold (split_ws_first_line stdout). rewrite Hparts.
  rewrite first_version_skip by done. rewrite first_version_part by done.
  rewrite split_on_hd by done.
  assert (Hns : no_space pre = true).
  { pose proof (split_ws_tokens
                  (hd EmptyString (Test_gcc_compatibility.split_on "010" stdout)))
      as Htok.
    fold (split_ws_first_line stdout) in Htok. rewrite Hparts in Htok.
    apply Forall_app in Htok as [_ Htok]. apply Forall_cons in Htok as [[_ H] _].
    by apply no_space_app_l in H. }
  destruct pre as [|d pre']; [done|].
  unfold looks_like_version in Hlooks. rewrite string_app_cons in Hlooks.
  apply andb_true_iff in Hlooks as [_ Hd].
  rewrite (py_int_plain _ d pre') by done.
  by rewrite (digits_value_bad 0 false _ c).
Qed.

Lemma get_gcc_version_value_error_witness :
  Test_gcc_compatibility.get_gcc_version "gcc version 8a.5"
  = inl Test_gcc_compatibility.ValueError.
Proof.
  apply (get_gcc_version_value_error _ ["gcc"; "version"] "8a" "5" [] "a");
    try reflexivity.
  - repeat constructor.
  - discriminate.
Defined.




